(** * mtail-f: following NUL-filled, growing files

    A shallow embedding of [mtail-f.c] and the properties of its ring buffer,
    its end-marker scanner and its polling loop.

    Conventions of the embedding.
    - A C [char] is an [ascii]; a [char *] buffer is the [list ascii] of the
      bytes that can be read through it.  An access outside that list is
      undefined behaviour in C; here such an access yields [None].
    - A C [int] is a [Z].  Line counts and record lengths stay far below
      [2^31], so no wrap-around is written out.
    - [malloc] always succeeds and returns a fresh, non-null block, also for a
      request of zero bytes (as glibc does).
    - The calls that [print_file_content] makes for a file (a header or a
      record printed, a record enqueued, a buffer drained) are kept in a log,
      of which [stdout] is the part written by [fprintf].
    - The files are what they are during one round of the polling loop; they
      may differ from round to round. *)

From Stdlib Require Import ZArith Ascii String Lia.
From stdpp Require Import base numbers list strings option.

Local Open Scope Z_scope.

(** ** C values *)

Definition char : Type := ascii.

Definition NUL : char := "000"%char.
Definition LF : char := "010"%char.

(** [a[i]] for an [int] index. *)
Definition zlookup {A : Type} (a : list A) (i : Z) : option A :=
  if decide (0 ≤ i) then a !! Z.to_nat i else None.

(** [a[i] = x] for an [int] index. *)
Definition zstore {A : Type} (a : list A) (i : Z) (x : A) : option (list A) :=
  if decide (0 ≤ i < Z.of_nat (length a)) then Some (<[Z.to_nat i := x]> a) else None.

(** The bytes read by a ["%s"] conversion or by [strlen]: everything before
    the first NUL.  A buffer without a NUL is read past its end. *)
Fixpoint cstring (s : list char) : option (list char) :=
  match s with
  | [] => None
  | c :: s' => if decide (c = NUL) then Some [] else (c ::.) <$> cstring s'
  end.

(** The [n] bytes that [strncpy (dest, src, n)] writes to [dest]: the bytes of
    [src] up to its NUL, then NULs. *)
Fixpoint strncpy (src : list char) (n : nat) {struct n} : option (list char) :=
  match n with
  | O => Some []
  | S n' =>
      match src with
      | [] => None
      | c :: src' =>
          if decide (c = NUL) then Some (replicate n NUL)
          else (c ::.) <$> strncpy src' n'
      end
  end.

(** ** Parameters: [mtail_params_t] *)

Record mtail_params := {
  num_lines : Z;
  quiet : bool;
  files : list string;
  delim : char;
  end_marker : char
}.

(** [parse_opts] sets [num_files] to the number of entries of [files]. *)
Definition num_files (p : mtail_params) : Z := Z.of_nat (length (files p)).

(** ** The ring buffer: [ring_buffer_t] *)

(** A block returned by [malloc]: the size asked for and the bytes written to
    it so far. *)
Record block := {
  alloc : Z;
  bytes : list char
}.

Record ring_buffer := {
  latest_index : Z;
  capacity : Z;
  size : Z;
  line : option (list (option block))
}.

Definition malloc (n : Z) : block := {| alloc := n; bytes := [] |}.

(** Writing [bs] at the start of a block; the bytes behind stay. *)
Definition write_block (b : block) (bs : list char) : option block :=
  if decide (Z.of_nat (length bs) ≤ alloc b)
  then Some {| alloc := alloc b; bytes := bs ++ drop (length bs) (bytes b) |}
  else None.

(** [sizeof (rb->line[index])], the size of a [char *] (LP64). *)
Definition sizeof_char_ptr : Z := 8.

(** [ring_buffer_init (rb, capacity)].  For a negative [capacity] the array
    is empty here; in C the size of the request wraps around, [malloc] fails
    and [memset] is called on the null pointer. *)
Definition ring_buffer_init (cap : Z) : ring_buffer :=
  {| latest_index := cap;
     capacity := cap;
     size := 0;
     line := Some (replicate (Z.to_nat cap) None) |}.

(** [enqueue (rb, line, len)]; the result carries [line] as well, whose byte
    [len-1] the function overwrites. *)
Definition enqueue (rb : ring_buffer) (ln : list char) (len : Z)
  : option (ring_buffer * list char) :=
  let latest := latest_index rb + 1 in
  let latest := if decide (capacity rb ≤ latest) then 0 else latest in
  let index := latest in
  lines ← line rb;
  slot ← zlookup lines index;
  let blk :=
    match slot with
    | None => malloc len
    | Some old =>
        let old_len := sizeof_char_ptr in
        if decide (old_len < len) then malloc len else old
    end in
  ln' ← zstore ln (len - 1) NUL;
  copied ← strncpy ln' (Z.to_nat len);
  blk' ← write_block blk copied;
  Some ({| latest_index := latest;
           capacity := capacity rb;
           size := if decide (size rb < capacity rb) then size rb + 1 else size rb;
           line := Some (<[Z.to_nat index := Some blk']> lines) |},
        ln').

(** The [for] loop of [print_ring_buffer]: [n] iterations left, [out] the
    strings printed so far. *)
Fixpoint print_lines (n : nat) (sz oldest_index : Z)
    (lines : list (option block)) (out : list (list char))
  : option (list (option block) * list (list char)) :=
  match n with
  | O => Some (lines, out)
  | S n' =>
      let oldest_index := if decide (sz ≤ oldest_index) then 0 else oldest_index in
      slot ← zlookup lines oldest_index;
      blk ← slot;
      text ← cstring (bytes blk);
      print_lines n' sz (oldest_index + 1)
        (<[Z.to_nat oldest_index := None]> lines) (out ++ [text])
  end.

(** [print_ring_buffer (rb)]: the buffer afterwards and the strings printed. *)
Definition print_ring_buffer (rb : ring_buffer)
  : option (ring_buffer * list (list char)) :=
  let oldest_index := latest_index rb + 1 in
  match line rb with
  | None => Some (rb, [])
  | Some lines =>
      '(_, out) ← print_lines (Z.to_nat (size rb)) (size rb) oldest_index lines [];
      Some ({| latest_index := latest_index rb;
               capacity := capacity rb;
               size := size rb;
               line := None |}, out)
  end.

(** ** The end-marker scanner *)

(** The [while] loop of [find_end_index]; [bs] is [buf] from index [i] on.
    [buf[i]] is read before [i < limit] is tested. *)
Fixpoint find_end_loop (bs : list char) (marker : char) (limit i : Z) : option Z :=
  match bs with
  | [] => None
  | c :: bs' =>
      if decide (c ≠ marker ∧ i < limit)
      then find_end_loop bs' marker limit (i + 1)
      else if decide (c = marker) then Some i else Some (-1)
  end.

Definition find_end_index (buf : list char) (marker : char) (limit : Z) : option Z :=
  find_end_loop buf marker limit 0.

(** ** Files and streams *)

(** The files as they are at one moment: the content under each name that can
    be opened for reading. *)
Definition filesystem : Type := string → option (list char).

(** An open [FILE *]: the file it reads and its cursor. *)
Record FILE := {
  path : string;
  offset : Z
}.

Definition fopen (fs : filesystem) (name : string) : option FILE :=
  match fs name with
  | Some _ => Some {| path := name; offset := 0 |}
  | None => None
  end.

Definition file_content (fs : filesystem) (f : FILE) : list char :=
  default [] (fs (path f)).

(** The bytes up to and including the first [d], or all of them. *)
Fixpoint read_record (d : char) (s : list char) : list char :=
  match s with
  | [] => []
  | c :: s' => if decide (c = d) then [c] else c :: read_record d s'
  end.

(** [getdelim (&buf, &chunk_size, d, fp)]: [None] stands for a return value
    that is not positive; otherwise the buffer (the record and its
    terminating NUL), the number of bytes read and the advanced stream.
    Every call reads the file as it is in the round.  The read-ahead buffer of
    the stream is not modelled: in glibc it survives a seek to a place inside
    it, unless the last read has met the end of the file, and then hides
    bytes written to the file since it was filled. *)
Definition getdelim (fs : filesystem) (d : char) (f : FILE)
  : option (list char * Z * FILE) :=
  match read_record d (drop (Z.to_nat (offset f)) (file_content fs f)) with
  | [] => None
  | rec =>
      let read_chars := Z.of_nat (length rec) in
      Some (rec ++ [NUL], read_chars,
            {| path := path f; offset := offset f + read_chars |})
  end.

(** [fseek (fp, off, SEEK_CUR)]; a seek before the start of the file fails and
    leaves the cursor where it is. *)
Definition fseek_cur (f : FILE) (off : Z) : FILE :=
  if decide (0 ≤ offset f + off)
  then {| path := path f; offset := offset f + off |}
  else f.

(** ** Per-file state: [file_data_t] *)

Record file_data := {
  fp : option FILE;
  rb : ring_buffer;
  end_reached : bool;
  f_delim : char   (* the field [delim] of [file_data_t] *)
}.

Definition set_fp (fd : file_data) (f : option FILE) : file_data :=
  {| fp := f; rb := rb fd; end_reached := end_reached fd; f_delim := f_delim fd |}.

Definition set_rb (fd : file_data) (r : ring_buffer) : file_data :=
  {| fp := fp fd; rb := r; end_reached := end_reached fd; f_delim := f_delim fd |}.

(** [close_files (file_data_array, n)]: entries [n-1] down to [0] are closed;
    [fclose] of a null stream is undefined. *)
Fixpoint close_files (arr : list file_data) (n : nat) : option (list file_data) :=
  match n with
  | O => Some arr
  | S n' =>
      fd ← arr !! n';
      _ ← fp fd;
      close_files (<[n' := set_fp fd None]> arr) n'
  end.

(** The [for] loop of [open_files] from index [i] on, [names] being the
    file names not yet visited. *)
Fixpoint open_files_from (fs : filesystem) (names : list string) (i : nat)
    (arr : list file_data) : option (list file_data * bool) :=
  match names with
  | [] => Some (arr, true)
  | name :: names' =>
      fd ← arr !! i;
      match fp fd with
      | Some _ => open_files_from fs names' (S i) arr
      | None =>
          match fopen fs name with
          | Some f => open_files_from fs names' (S i) (<[i := set_fp fd (Some f)]> arr)
          | None => arr' ← close_files arr i; Some (arr', false)
          end
      end
  end.

Definition open_files (fs : filesystem) (names : list string)
    (arr : list file_data) : option (list file_data * bool) :=
  open_files_from fs names 0 arr.

(** ** The state of [print_file_content] *)

(** The calls that [print_file_content] makes for file [i]. *)
Inductive event :=
| Header (i : Z) (name : string)       (* fprintf (stdout, "\n==> %s <==\n", files[i]) *)
| Direct (i : Z) (buf : list char)     (* fprintf (stdout, "%s", buf) *)
| Enqueued (i : Z) (buf : list char)   (* enqueue (&f_array[i].rb, buf, read_chars+1) *)
| Drained (i : Z) (texts : list (list char)). (* print_ring_buffer (&f_array[i].rb) *)

Record state := {
  f_array : list file_data;
  last_file_printed : Z;
  log : list event
}.

Definition header_text (name : string) : list char :=
  list_ascii_of_string (String LF "==> " ++ name ++ String " " (String "<" (String "=" (String "=" (String LF EmptyString)))))%string.

(** What an event writes to [stdout]. *)
Definition written (e : event) : list (list char) :=
  match e with
  | Header _ name => [header_text name]
  | Direct _ buf => [default [] (cstring buf)]
  | Enqueued _ _ => []
  | Drained _ texts => texts
  end.

Definition stdout (st : state) : list (list char) :=
  concat (written <$> log st).

Definition set_files (st : state) (arr : list file_data) : state :=
  {| f_array := arr;
     last_file_printed := last_file_printed st;
     log := log st |}.

(** [f_array[i] = fd] *)
Definition set_file (st : state) (i : Z) (fd : file_data) : state :=
  set_files st (<[Z.to_nat i := fd]> (f_array st)).

Definition add_event (st : state) (e : event) : state :=
  {| f_array := f_array st;
     last_file_printed := last_file_printed st;
     log := log st ++ [e] |}.

(** The initialisation loop of [print_file_content]. *)
Definition init_file (p : mtail_params) : file_data :=
  {| fp := None;
     rb := ring_buffer_init (num_lines p);
     end_reached := bool_decide (num_lines p = 0);
     f_delim := delim p |}.

Definition init_state (p : mtail_params) : state :=
  {| f_array := replicate (length (files p)) (init_file p);
     last_file_printed := -1;
     log := [] |}.

Definition need_to_print_file_name (p : mtail_params) : bool :=
  negb (quiet p) && bool_decide (1 < num_files p).

(** ** Results of the loops *)

(** A loop of the program either yields a value, runs into undefined
    behaviour of C, or exhausts the iteration bound of its model. *)
Inductive result (A : Type) : Type :=
| Ok (a : A)
| Undefined
| OutOfFuel.

Arguments Ok {A} a.
Arguments Undefined {A}.
Arguments OutOfFuel {A}.

#[global] Instance result_bind : MBind result := λ A B f m,
  match m with
  | Ok a => f a
  | Undefined => Undefined
  | OutOfFuel => OutOfFuel
  end.

(** A step that is undefined where its model has no value. *)
Definition defined {A : Type} (o : option A) : result A :=
  match o with
  | Some a => Ok a
  | None => Undefined
  end.

(** ** The body of the read loop *)

(** Lines 365-381: the header and the record, printed or enqueued.  The
    result carries [print_file_name] and [buf], which the code updates. *)
Definition emit_record (p : mtail_params) (i : Z) (buf : list char)
    (read_chars : Z) (print_file_name : bool) (st : state)
  : option (state * bool * list char) :=
  c ← zlookup buf 0;
  if decide (c ≠ end_marker p) then
    '(st, print_file_name) ←
      (if print_file_name && bool_decide (last_file_printed st ≠ i) then
         name ← zlookup (files p) i;
         Some ({| f_array := f_array st;
                  last_file_printed := i;
                  log := log st ++ [Header i name] |}, false)
       else Some (st, print_file_name));
    fd ← zlookup (f_array st) i;
    if end_reached fd then
      _ ← cstring buf;
      Some (add_event st (Direct i buf), print_file_name, buf)
    else
      '(r, buf') ← enqueue (rb fd) buf (read_chars + 1);
      Some (add_event (set_file st i (set_rb fd r)) (Enqueued i buf),
            print_file_name, buf')
  else Some (st, print_file_name, buf).

(** [move_by], line 391. *)
Definition rewind_distance (buf : list char) (marker : char) (read_chars : Z)
  : option Z :=
  idx ← find_end_index buf marker read_chars;
  Some (read_chars - idx).

(** Lines 383-402: the test for the end marker; the boolean tells whether the
    read loop is left by [break]. *)
Definition check_end_marker (p : mtail_params) (i : Z) (buf : list char)
    (read_chars : Z) (st : state) : option (state * bool) :=
  c ← zlookup buf (read_chars - 1);
  if decide (c = end_marker p) then
    fd ← zlookup (f_array st) i;
    '(fd, st) ←
      (if end_reached fd then Some (fd, st)
       else
         '(r, texts) ← print_ring_buffer (rb fd);
         Some ({| fp := fp fd; rb := r; end_reached := true;
                  f_delim := end_marker p |},
               add_event st (Drained i texts)));
    move_by ← rewind_distance buf (end_marker p) read_chars;
    f ← fp fd;
    Some (set_file st i (set_fp fd (Some (fseek_cur f (- move_by)))), true)
  else Some (st, false).

(** The [while] loop over [getdelim], lines 359-403, for file [i]. *)
Fixpoint read_records (fuel : nat) (p : mtail_params) (fs : filesystem) (i : Z)
    (print_file_name : bool) (st : state) : result state :=
  match fuel with
  | O => OutOfFuel
  | S fuel' =>
      fd ← defined (zlookup (f_array st) i);
      f ← defined (fp fd);
      match getdelim fs (f_delim fd) f with
      | None => Ok st
      | Some (buf, read_chars, f') =>
          let st := set_file st i (set_fp fd (Some f')) in
          '(st, print_file_name, buf) ←
            defined (emit_record p i buf read_chars print_file_name st);
          '(st, stop) ← defined (check_end_marker p i buf read_chars st);
          if (stop : bool) then Ok st
          else read_records fuel' p fs i print_file_name st
      end
  end.

(** One pass over file [i], lines 356-407.  Every iteration of the read loop
    that does not leave it consumes a byte of the file, which bounds it.  The
    seek by 0 bytes after the loop, line 407, leaves the cursor where it
    is. *)
Definition read_file (p : mtail_params) (fs : filesystem) (i : Z) (st : state)
  : result state :=
  fd ← defined (zlookup (f_array st) i);
  f ← defined (fp fd);
  read_records (S (length (file_content fs f))) p fs i
    (need_to_print_file_name p) st.

(** The [for] loop over the files, line 355. *)
Fixpoint poll_files (p : mtail_params) (fs : filesystem) (idx : list Z)
    (st : state) : result state :=
  match idx with
  | [] => Ok st
  | i :: idx' => st ← read_file p fs i st; poll_files p fs idx' st
  end.

(** ** The polling loop *)

(** What the environment contributes to one round: the files as they are
    during the round and the answer of [stop_conditions_met] after the
    sleep. *)
Record round := {
  disk : filesystem;
  stop_conditions_met : bool
}.

(** The [while (true)] loop, lines 350-414, over the rounds given; the boolean
    tells whether the loop was left. *)
Fixpoint follow (p : mtail_params) (rounds : list round) (st : state)
  : result (state * bool) :=
  match rounds with
  | [] => Ok (st, false)
  | r :: rounds' =>
      '(arr, opened) ← defined (open_files (disk r) (files p) (f_array st));
      let st := set_files st arr in
      if (opened : bool) then
        st ← poll_files p (disk r) (seqZ 0 (num_files p)) st;
        if stop_conditions_met r then Ok (st, true)
        else follow p rounds' st
      else Ok (st, true)
  end.

(** [print_file_content]: the final state and, once the loop was left, the
    value returned. *)
Definition print_file_content (p : mtail_params) (rounds : list round)
  : result (state * option bool) :=
  '(st, ended) ← follow p rounds (init_state p);
  if (ended : bool) then
    arr ← defined (close_files (f_array st) (length (files p)));
    Ok (set_files st arr, Some true)
  else Ok (st, None).

Definition EXIT_SUCCESS : Z := 0.

(** [main], after [parse_opts]: the exit code once the program has ended. *)
Definition main (p : mtail_params) (rounds : list round)
  : result (state * option Z) :=
  '(st, returned) ← print_file_content p rounds;
  Ok (st, match (returned : option bool) with
          | Some _ => Some EXIT_SUCCESS
          | None => None
          end).

(** ** Specification-level notions *)

(** The string that printing a slot with ["%s"] writes. *)
Definition slot_text (s : option block) : option (list char) :=
  blk ← s; cstring (bytes blk).

(** The slot that holds the record [t] places after the oldest one. *)
Definition slot_of (r : ring_buffer) (t : Z) : Z :=
  let x := latest_index r + 1 + t in
  if decide (x < size r) then x else x - size r.

(** [represents r q]: the live buffer [r] holds the strings [q], oldest
    first. *)
Definition represents (r : ring_buffer) (q : list (list char)) : Prop :=
  ∃ lines,
    line r = Some lines ∧
    Z.of_nat (length lines) = capacity r ∧
    size r = Z.of_nat (length q) ∧
    size r ≤ capacity r ∧
    (if decide (size r = 0) then latest_index r = capacity r
     else 0 ≤ latest_index r < size r ∧
          (size r < capacity r → latest_index r = size r - 1)) ∧
    ∀ (t : nat) (text : list char),
      q !! t = Some text →
      slot_text <$> zlookup lines (slot_of r (Z.of_nat t)) = Some (Some text).

(** A bounded queue of capacity [cap]: a new element evicts the oldest one
    once the queue is full. *)
Definition push (cap : Z) (q : list (list char)) (text : list char)
  : list (list char) :=
  if decide (Z.of_nat (length q) < cap) then q ++ [text] else drop 1 q ++ [text].

(** The string that [enqueue (rb, ln, len)] stores: [ln], cut at [len-1]. *)
Definition stored_text (rec : list char * Z) : list char :=
  default [] (ln' ← zstore rec.1 (rec.2 - 1) NUL; cstring ln').

(** A sequence of [enqueue] calls, each given as its [line] and [len]. *)
Fixpoint enqueue_all (r : ring_buffer) (recs : list (list char * Z))
  : option ring_buffer :=
  match recs with
  | [] => Some r
  | rec :: recs' => '(r', _) ← enqueue r rec.1 rec.2; enqueue_all r' recs'
  end.

(** The number of calls of [print_ring_buffer] for file [i] in a log. *)
Fixpoint drains (i : Z) (l : list event) : nat :=
  match l with
  | [] => O
  | Drained j _ :: l' => if decide (i = j) then S (drains i l') else drains i l'
  | _ :: l' => drains i l'
  end.

(** How the loop changes a stream: it closes it, opens it, reads from it or
    seeks in it. *)
Definition stream_step (old new : option FILE) : Prop :=
  new = None ∨
  (old = None ∧ ∃ name, new = Some {| path := name; offset := 0 |}) ∨
  (∃ f n, old = Some f ∧ 0 < n ∧
          new = Some {| path := path f; offset := offset f + n |}) ∨
  (∃ f off, old = Some f ∧ new = Some (fseek_cur f off)).

(** [keeps P st st']: where every file of [st] has the property [P], every
    file of [st'] has it. *)
Definition keeps (P : file_data → Prop) (st st' : state) : Prop :=
  Forall P (f_array st) → Forall P (f_array st').

(** The cursor of an open stream is not negative. *)
Definition cursor_ok (fd : file_data) : Prop :=
  ∀ f, fp fd = Some f → 0 ≤ offset f.

(** [once p st st']: from [st] to [st'] every file either keeps its flag, its
    delimiter and the number of its drains, or it passes from "end not
    reached" to "end reached", takes the end marker as delimiter and is
    drained one more time. *)
Definition once (p : mtail_params) (st st' : state) : Prop :=
  length (f_array st') = length (f_array st) ∧
  ∀ i fd, zlookup (f_array st) i = Some fd →
    ∃ fd', zlookup (f_array st') i = Some fd' ∧
      ((end_reached fd' = end_reached fd ∧ f_delim fd' = f_delim fd ∧
        drains i (log st') = drains i (log st)) ∨
       (end_reached fd = false ∧ end_reached fd' = true ∧
        f_delim fd' = end_marker p ∧
        drains i (log st') = S (drains i (log st)))).

(** The events that print or enqueue a record carry a buffer that does not
    start with the end marker. *)
Definition content_event_ok (p : mtail_params) (e : event) : Prop :=
  match e with
  | Direct _ buf | Enqueued _ buf => zlookup buf 0 ≠ Some (end_marker p)
  | _ => True
  end.

Definition is_enqueue (e : event) : bool :=
  match e with
  | Enqueued _ _ => true
  | _ => false
  end.

(** With [num_lines = 0] no file ever leaves the state it starts in, and
    nothing is enqueued. *)
Definition unbuffered (st : state) : Prop :=
  Forall (λ fd, end_reached fd = true ∧ rb fd = ring_buffer_init 0) (f_array st) ∧
  Forall (λ e, is_enqueue e = false) (log st).

(** The buffer of a file is null exactly when the end was reached. *)
Definition buffer_matches_flag (fd : file_data) : Prop :=
  line (rb fd) = None ↔ end_reached fd = true.

(** A file that has not reached the end has a buffer that can be drained. *)
Definition drainable (p : mtail_params) (fd : file_data) : Prop :=
  end_reached fd = false →
  (∃ q, represents (rb fd) q) ∨ rb fd = ring_buffer_init (num_lines p).

(** The file of the last header of a log that starts after a header of file
    [last]. *)
Definition last_header (last : Z) (l : list event) : Z :=
  foldl (λ acc e, match e with Header i _ => i | _ => acc end) last l.

(** No header of a log repeats the file of the header before it, [last]
    being the file of the header before the log. *)
Fixpoint headers_change (last : Z) (l : list event) : Prop :=
  match l with
  | [] => True
  | Header i _ :: l' => i ≠ last ∧ headers_change i l'
  | _ :: l' => headers_change last l'
  end.

(** The headers of the log change from one to the next, and
    [last_file_printed] is the file of the last one. *)
Definition headers_ok (st : state) : Prop :=
  headers_change (-1) (log st) ∧ last_file_printed st = last_header (-1) (log st).

(** ** Concrete inputs *)

Definition text (s : string) : list char := list_ascii_of_string s.

(** The records ["\n"] and ["a\n"] as [getdelim] hands them to [enqueue]. *)
Definition rec_empty_line : list char * Z := ([LF; NUL], 2).
Definition rec_a : list char * Z := (text "a" ++ [LF; NUL], 3).

(** The three lines of scenario C and a fourth one, as [enqueue] gets them. *)
Definition rec_of (s : string) : list char * Z :=
  (text s ++ [LF; NUL], Z.of_nat (length (text s)) + 2).

(** One file, [ab] followed by a NUL, read with the NUL as delimiter. *)
Definition fs_ab : filesystem :=
  λ name, if decide (name = "log"%string) then Some (text "ab" ++ [NUL]) else None.

Definition params_ab : mtail_params :=
  {| num_lines := 0; quiet := true; files := ["log"%string];
     delim := NUL; end_marker := NUL |}.



(** One round over [fs_ab], after which the loop stops. *)
Definition round_ab : round := {| disk := fs_ab; stop_conditions_met := true |}.

(** Two files followed with [-n 1].  In the first round [A] holds one line and
    no filler yet, [B] holds one line and a filler byte; in the second round
    a filler byte has appeared behind the line of [A]. *)
Definition fs_round1 : filesystem :=
  λ name, if decide (name = "A"%string) then Some (text "a1" ++ [LF])
          else if decide (name = "B"%string) then Some (text "b1" ++ [LF; NUL])
          else None.

Definition fs_round2 : filesystem :=
  λ name, if decide (name = "A"%string) then Some (text "a1" ++ [LF; NUL])
          else if decide (name = "B"%string) then Some (text "b1" ++ [LF; NUL])
          else None.

Definition params_two : mtail_params :=
  {| num_lines := 1; quiet := false; files := ["A"%string; "B"%string];
     delim := LF; end_marker := NUL |}.

Definition round1 : round := {| disk := fs_round1; stop_conditions_met := false |}.
Definition round2 : round := {| disk := fs_round2; stop_conditions_met := true |}.

(** The states of that run after its first and after its second round, and
    the entry of [A] after the first round. *)
Definition state_after_round1 : state :=
  Eval vm_compute in
    match follow params_two [round1] (init_state params_two) with
    | Ok (st, _) => st
    | _ => init_state params_two
    end.

Definition state_after_round2 : state :=
  Eval vm_compute in
    match follow params_two [round2] state_after_round1 with
    | Ok (st, _) => st
    | _ => init_state params_two
    end.

Definition file_A_after_round1 : file_data :=
  Eval vm_compute in default (init_file params_two) (f_array state_after_round1 !! 0%nat).

(** Two files of which the second cannot be opened. *)
Definition params_missing : mtail_params :=
  {| num_lines := 10; quiet := false; files := ["log"%string; "missing"%string];
     delim := LF; end_marker := NUL |}.

Definition round_missing : round := {| disk := fs_ab; stop_conditions_met := false |}.

(** ** Further notions and inputs *)

(** The slot that the next call of [enqueue] writes. *)
Definition next_index (r : ring_buffer) : Z :=
  let latest := latest_index r + 1 in
  if decide (capacity r ≤ latest) then 0 else latest.

(** The buffer of capacity 3 after the four lines of scenario C. *)
Definition buffer_abcd : ring_buffer :=
  Eval vm_compute in
    default (ring_buffer_init 3)
      (enqueue_all (ring_buffer_init 3) [rec_of "a"; rec_of "b"; rec_of "c"; rec_of "d"]).

(** All streams of an array are open; all are null. *)
Definition all_open (arr : list file_data) : Prop :=
  Forall (λ fd, is_Some (fp fd)) arr.

Definition all_closed (arr : list file_data) : Prop :=
  Forall (λ fd, fp fd = None) arr.

(** An entry with its stream closed; an entry with its stream opened on
    [name]. *)
Definition closed (fd : file_data) : file_data := set_fp fd None.

Definition opened_on (fd : file_data) (name : string) : file_data :=
  set_fp fd (Some {| path := name; offset := 0 |}).

(** [headed need last l]: in the log [l], which starts after a header of file
    [last], headers occur only if [need] holds, and then every record that is
    printed directly or enqueued belongs to the file of the header before
    it.  Drains are not constrained. *)
Fixpoint headed (need : bool) (last : Z) (l : list event) : Prop :=
  match l with
  | [] => True
  | Header i _ :: l' => need = true ∧ headed need i l'
  | Direct i _ :: l' | Enqueued i _ :: l' =>
      (need = true → i = last) ∧ headed need last l'
  | Drained _ _ :: l' => headed need last l'
  end.

(** The events that print a header. *)
Definition is_header (e : event) : bool :=
  match e with
  | Header _ _ => true
  | _ => false
  end.

(** The state during a pass over file [i], [pfn] being [print_file_name]. *)
Definition pass_ok (p : mtail_params) (i : Z) (pfn : bool) (st : state) : Prop :=
  headed (need_to_print_file_name p) (-1) (log st) ∧
  last_file_printed st = last_header (-1) (log st) ∧
  (if need_to_print_file_name p then pfn = true ∨ last_file_printed st = i
   else pfn = false).

(** The delimiter of a file: [delim] until the end is reached, the end marker
    afterwards; with [num_lines = 0] the end counts as reached from the start
    and the delimiter stays [delim]. *)
Definition delimiter_ok (p : mtail_params) (fd : file_data) : Prop :=
  f_delim fd = (if end_reached fd && negb (bool_decide (num_lines p = 0))
                then end_marker p else delim p) ∧
  (num_lines p = 0 → end_reached fd = true).

(** The phases of file [i] in a log: records are enqueued, then the buffer is
    drained, then records are printed.  [printing] tells whether the drain
    lies behind; the result is [None] for a log that breaks the order. *)
Fixpoint phases (i : Z) (printing : bool) (l : list event) : option bool :=
  match l with
  | [] => Some printing
  | Header _ _ :: l' => phases i printing l'
  | Enqueued j _ :: l' =>
      if decide (j = i) then (if printing then None else phases i false l')
      else phases i printing l'
  | Drained j _ :: l' =>
      if decide (j = i) then (if printing then None else phases i true l')
      else phases i printing l'
  | Direct j _ :: l' =>
      if decide (j = i) then (if printing then phases i true l' else None)
      else phases i printing l'
  end.

(** [phased st st']: from [st] to [st'] events are added to the log that keep
    the order of the phases of every file, and lead from the flag of the file
    in [st] to its flag in [st']. *)
Definition phased (st st' : state) : Prop :=
  length (f_array st') = length (f_array st) ∧
  ∃ l, log st' = log st ++ l ∧
    ∀ i fd, zlookup (f_array st) i = Some fd →
      ∃ fd', zlookup (f_array st') i = Some fd' ∧
             phases i (end_reached fd) l = Some (end_reached fd').



(** The state in which the run over [fs_ab] ends. *)
Definition state_ab_final : state :=
  Eval vm_compute in
    match follow params_ab [round_ab] (init_state params_ab) with
    | Ok (st, _) => st
    | _ => init_state params_ab
    end.


























(** * Properties *)

(** Case analysis on the decisions of the goal. *)
Ltac split_decide :=
  repeat match goal with |- context [decide ?P] => destruct (decide P) end.

(** ** Array accesses *)

Lemma zlookup_Some {A : Type} (a : list A) (i : Z) (x : A) :
  zlookup a i = Some x ↔ 0 ≤ i ∧ a !! Z.to_nat i = Some x.
Proof.
  unfold zlookup. destruct (decide (0 ≤ i)); [tauto|].
  split; [discriminate|]. intros [? _]; lia.
Qed.

Lemma zlookup_of_nat {A : Type} (a : list A) (n : nat) :
  zlookup a (Z.of_nat n) = a !! n.
Proof.
  unfold zlookup. destruct (decide (0 ≤ Z.of_nat n)); [|lia].
  by rewrite Nat2Z.id.
Qed.

Lemma zlookup_lt {A : Type} (a : list A) (i : Z) (x : A) :
  zlookup a i = Some x → 0 ≤ i < Z.of_nat (length a).
Proof.
  intros [? H]%zlookup_Some. apply lookup_lt_Some in H. lia.
Qed.

Lemma zlookup_insert_eq {A : Type} (a : list A) (i : Z) (x y : A) :
  zlookup a i = Some y → zlookup (<[Z.to_nat i := x]> a) i = Some x.
Proof.
  intros [Hi H]%zlookup_Some. apply lookup_lt_Some in H.
  apply zlookup_Some. split; [done|]. by apply list_lookup_insert_eq.
Qed.

Lemma zlookup_insert_cases {A : Type} (a : list A) (n : nat) (x y : A) (i : Z) :
  zlookup a i = Some y →
  (i = Z.of_nat n ∧ zlookup (<[n := x]> a) i = Some x) ∨
  (i ≠ Z.of_nat n ∧ zlookup (<[n := x]> a) i = Some y).
Proof.
  intros H. destruct (decide (i = Z.of_nat n)) as [->|Hne].
  - left. split; [done|]. rewrite zlookup_of_nat in *.
    apply list_lookup_insert_eq. by apply lookup_lt_Some in H.
  - right. split; [done|]. apply zlookup_Some in H as [Hi H].
    apply zlookup_Some. split; [done|].
    rewrite list_lookup_insert_ne by lia. done.
Qed.

(** ** The end-marker scanner *)

Lemma find_end_loop_first (bs : list char) (marker : char) (limit i0 : Z) (k : nat) :
  bs !! k = Some marker →
  (∀ j : nat, (j < k)%nat → bs !! j ≠ Some marker) →
  i0 + Z.of_nat k < limit →
  find_end_loop bs marker limit i0 = Some (i0 + Z.of_nat k).
Proof.
  revert bs i0. induction k as [|k IH]; intros [|c bs] i0 Hk Hbefore Hlim;
    try discriminate; simpl in *.
  - injection Hk as ->.
    destruct (decide (marker ≠ marker ∧ i0 < limit)) as [[? _]|_]; [done|].
    destruct (decide (marker = marker)); [|done]. f_equal; lia.
  - destruct (decide (c ≠ marker ∧ i0 < limit)) as [_|Hn].
    + rewrite (IH bs (i0 + 1)); [f_equal; lia|done| |lia].
      intros j Hj. apply (Hbefore (S j)). lia.
    + exfalso. apply Hn. split; [|lia].
      intros ->. by apply (Hbefore 0%nat); [lia|].
Qed.

(** Where the marker occurs among the first [limit] bytes, the scanner returns
    the offset of its first occurrence. *)
Lemma find_end_index_first (buf : list char) (marker : char) (limit k : Z) :
  0 ≤ k < limit →
  zlookup buf k = Some marker →
  (∀ j, 0 ≤ j < k → zlookup buf j ≠ Some marker) →
  find_end_index buf marker limit = Some k.
Proof.
  intros Hk [_ Hat]%zlookup_Some Hbefore. unfold find_end_index.
  rewrite (find_end_loop_first buf marker limit 0 (Z.to_nat k)); [f_equal; lia|done| |lia].
  intros j Hj. specialize (Hbefore (Z.of_nat j)).
  rewrite zlookup_of_nat in Hbefore. apply Hbefore. lia.
Qed.

Lemma find_end_loop_none (bs : list char) (marker : char) (limit i0 : Z) :
  i0 ≤ limit →
  limit - i0 < Z.of_nat (length bs) →
  (∀ j : nat, Z.of_nat j ≤ limit - i0 → bs !! j ≠ Some marker) →
  find_end_loop bs marker limit i0 = Some (-1).
Proof.
  revert i0. induction bs as [|c bs IH]; intros i0 Hle Hlen Hno; simpl in *; [lia|].
  assert (c ≠ marker) as Hc.
  { intros ->. by apply (Hno 0%nat); [lia|]. }
  destruct (decide (c ≠ marker ∧ i0 < limit)) as [[_ Hlt]|Hn].
  - apply IH; [lia|lia|]. intros j Hj. apply (Hno (S j)). lia.
  - destruct (decide (c = marker)); done.
Qed.

(** Where the marker occurs nowhere among the first [limit + 1] bytes, the
    scanner returns -1. *)
Lemma find_end_index_none (buf : list char) (marker : char) (limit : Z) :
  0 ≤ limit < Z.of_nat (length buf) →
  (∀ j, 0 ≤ j ≤ limit → zlookup buf j ≠ Some marker) →
  find_end_index buf marker limit = Some (-1).
Proof.
  intros Hlim Hno. apply find_end_loop_none; [lia|lia|].
  intros j Hj. specialize (Hno (Z.of_nat j)).
  rewrite zlookup_of_nat in Hno. apply Hno. lia.
Qed.

(** The byte at index [limit] is examined as well: a marker there is
    reported, although it is not among the first [limit] bytes. *)
Lemma find_end_index_at_limit (buf : list char) (marker : char) (limit : Z) :
  0 ≤ limit →
  zlookup buf limit = Some marker →
  (∀ j, 0 ≤ j < limit → zlookup buf j ≠ Some marker) →
  find_end_index buf marker limit = Some limit.
Proof.
  intros Hlim [_ Hat]%zlookup_Some Hbefore. unfold find_end_index.
  assert (∀ bs i0 (k : nat),
    bs !! k = Some marker → (∀ j : nat, (j < k)%nat → bs !! j ≠ Some marker) →
    i0 + Z.of_nat k = limit → find_end_loop bs marker limit i0 = Some limit) as Hgen.
  { intros bs i0 k. revert bs i0.
    induction k as [|k IH]; intros [|c bs] i0 Hk Hb Hl; try discriminate; simpl in *.
    - injection Hk as ->.
      destruct (decide (marker ≠ marker ∧ i0 < limit)) as [[? _]|_]; [done|].
      destruct (decide (marker = marker)); [|done]. f_equal; lia.
    - destruct (decide (c ≠ marker ∧ i0 < limit)) as [_|Hn].
      + apply (IH bs (i0 + 1)); [done| |lia].
        intros j Hj. apply (Hb (S j)). lia.
      + exfalso. apply Hn. split; [|lia].
        intros ->. by apply (Hb 0%nat); [lia|]. }
  apply (Hgen buf 0 (Z.to_nat limit)); [done| |lia].
  intros j Hj. specialize (Hbefore (Z.of_nat j)).
  rewrite zlookup_of_nat in Hbefore. apply Hbefore. lia.
Qed.

(** ** C strings *)

Lemma cstring_is_Some (s : list char) (k : nat) :
  s !! k = Some NUL → is_Some (cstring s).
Proof.
  revert k. induction s as [|c s IH]; intros k Hk; [done|]. simpl.
  destruct (decide (c = NUL)); [by eexists|].
  destruct k as [|k]; simpl in Hk; [congruence|].
  destruct (IH k Hk) as [t ->]. by eexists.
Qed.

(** What [strncpy] has written reads back as the source string, whatever
    follows it in the destination. *)
Lemma strncpy_cstring (src : list char) (n k : nat) (copied rest : list char) :
  strncpy src n = Some copied →
  (k < n)%nat →
  src !! k = Some NUL →
  cstring (copied ++ rest) = cstring src.
Proof.
  revert src k copied. induction n as [|n IH]; intros src k copied H Hk Hnul; [lia|].
  simpl in H. destruct src as [|c src]; [done|]. simpl.
  destruct (decide (c = NUL)) as [->|Hc].
  - injection H as <-. simpl. by destruct (decide (NUL = NUL)).
  - destruct (strncpy src n) as [t|] eqn:Ht; [|done].
    injection H as <-. simpl.
    destruct (decide (c = NUL)); [done|].
    destruct k as [|k]; simpl in Hnul; [congruence|].
    by rewrite (IH src k t); [| |lia|].
Qed.

(** ** The ring buffer *)

Lemma represents_init (cap : Z) : 0 ≤ cap → represents (ring_buffer_init cap) [].
Proof.
  intros Hcap. exists (replicate (Z.to_nat cap) None). simpl.
  rewrite length_replicate. repeat split; try done; try lia.
Qed.

Lemma slot_text_written (blk blk' : block) (ln : list char) (len : Z)
    (copied : list char) :
  0 ≤ len - 1 →
  ln !! Z.to_nat (len - 1) = Some NUL →
  strncpy ln (Z.to_nat len) = Some copied →
  write_block blk copied = Some blk' →
  slot_text (Some blk') = cstring ln.
Proof.
  intros Hlen Hnul Hcopy Hw. unfold write_block in Hw.
  destruct (decide _); [|done]. injection Hw as <-. simpl.
  apply (strncpy_cstring ln (Z.to_nat len) (Z.to_nat (len - 1))); [done|lia|done].
Qed.

(** [enqueue] implements [push] on the strings held. *)
Lemma enqueue_represents (r r' : ring_buffer) (q : list (list char))
    (ln ln' : list char) (len : Z) :
  represents r q →
  enqueue r ln len = Some (r', ln') →
  capacity r' = capacity r ∧
  zstore ln (len - 1) NUL = Some ln' ∧
  ∃ text, cstring ln' = Some text ∧ represents r' (push (capacity r) q text).
Proof.
  intros (lines & Hline & Hlen & Hsize & Hcap & Hlatest & Hslots) Henq.
  unfold enqueue in Henq. rewrite Hline in Henq. simpl in Henq.
  set (latest := if decide (capacity r ≤ latest_index r + 1) then 0
                 else latest_index r + 1) in *.
  destruct (zlookup lines latest) as [slot|] eqn:Hslot; [|done]. simpl in Henq.
  destruct (zstore ln (len - 1) NUL) as [ln1|] eqn:Hstore; [|done]. simpl in Henq.
  destruct (strncpy ln1 (Z.to_nat len)) as [copied|] eqn:Hcopy; [|done]. simpl in Henq.
  match type of Henq with context [write_block ?b copied] => set (blk := b) in * end.
  destruct (write_block blk copied) as [blk'|] eqn:Hw; [|done]. simpl in Henq.
  injection Henq as <- <-.
  pose proof (zlookup_lt _ _ _ Hslot) as Hidx.
  assert (0 ≤ len - 1 ∧ ln1 !! Z.to_nat (len - 1) = Some NUL) as [Hlen1 Hnul].
  { unfold zstore in Hstore.
    destruct (decide (0 ≤ len - 1 < Z.of_nat (length ln))) as [Hr|]; [|done].
    injection Hstore as <-. split; [lia|].
    apply list_lookup_insert_eq. lia. }
  destruct (cstring_is_Some _ _ Hnul) as [text Htext].
  assert (slot_text (Some blk') = Some text) as Hnew.
  { by rewrite (slot_text_written blk blk' ln1 len copied). }
  split; [done|]. split; [done|]. exists text. split; [done|].
  exists (<[Z.to_nat latest := Some blk']> lines). simpl.
  rewrite length_insert. unfold push.
  assert (latest = if decide (size r < capacity r) then size r
                   else if decide (capacity r ≤ latest_index r + 1) then 0
                        else latest_index r + 1) as Hl.
  { subst latest. destruct (decide (size r = 0)); repeat case_decide; lia. }
  clearbody latest blk.
  destruct (decide (size r < capacity r)) as [Hroom|Hfull].
  - (* the buffer is not full: the record goes behind the others *)
    rewrite decide_True by lia. rewrite length_app. simpl.
    repeat split; try done; try lia; try (split_decide; lia).
    + intros t text' Ht. unfold slot_of. simpl.
      destruct (decide (t = length q)) as [->|Hne].
      * rewrite lookup_app_r in Ht by lia. rewrite Nat.sub_diag in Ht.
        injection Ht as <-.
        replace (if decide (latest + 1 + Z.of_nat (length q) < size r + 1) then _ else _)
          with latest by (split_decide; lia).
        unfold zlookup. rewrite decide_True by lia.
        rewrite list_lookup_insert_eq by lia.
        change (Some (slot_text (Some blk')) = Some (Some text)). by rewrite Hnew.
      * assert (t < length q)%nat as Hlt.
        { apply lookup_lt_Some in Ht. rewrite length_app in Ht. simpl in Ht. lia. }
        rewrite lookup_app_l in Ht by done.
        specialize (Hslots t text' Ht). unfold slot_of in Hslots.
        replace (if decide (latest + 1 + Z.of_nat t < size r + 1) then _ else _)
          with (Z.of_nat t) by (split_decide; lia).
        replace (if decide (latest_index r + 1 + Z.of_nat t < size r) then _ else _)
          with (Z.of_nat t) in Hslots
          by (destruct (decide (size r = 0)); split_decide; lia).
        rewrite zlookup_of_nat in *.
        rewrite list_lookup_insert_ne by lia. done.
  - (* the buffer is full: the record replaces the oldest one *)
    rewrite decide_False by lia.
    assert (size r = capacity r) as Hn by lia.
    assert (size r ≠ 0) as Hpos by lia.
    destruct (decide (size r = 0)) as [|_]; [done|].
    assert (length (drop 1 q ++ [text]) = length q) as Hlq.
    { rewrite length_app, length_drop. simpl. lia. }
    rewrite Hlq. repeat split; try done; try lia; try (split_decide; lia).
    + intros t text' Ht. unfold slot_of. simpl.
      assert (t < length q)%nat as Hlt.
      { apply lookup_lt_Some in Ht. lia. }
      destruct (decide (t = length q - 1)%nat) as [->|Hne].
      * rewrite lookup_app_r in Ht by (rewrite length_drop; lia).
        rewrite length_drop, Nat.sub_diag in Ht. injection Ht as <-.
        replace (if decide (latest + 1 + Z.of_nat (length q - 1) < size r) then _ else _)
          with latest by (split_decide; lia).
        unfold zlookup. rewrite decide_True by lia.
        rewrite list_lookup_insert_eq by lia.
        change (Some (slot_text (Some blk')) = Some (Some text)). by rewrite Hnew.
      * rewrite lookup_app_l in Ht by (rewrite length_drop; lia).
        rewrite lookup_drop in Ht.
        specialize (Hslots (1 + t)%nat text' Ht). unfold slot_of in Hslots.
        set (s' := if decide (latest + 1 + Z.of_nat t < size r) then _ else _).
        set (s := if decide (latest_index r + 1 + Z.of_nat (1 + t) < size r) then _ else _) in Hslots.
        assert (s' = s ∧ s ≠ latest ∧ 0 ≤ s) as (-> & Hs & Hs0).
        { subst s s'. destruct (decide (capacity r ≤ latest_index r + 1));
            split_decide; lia. }
        unfold zlookup in *. rewrite decide_True in * by lia.
        rewrite list_lookup_insert_ne by lia. done.
Qed.

Lemma print_lines_spec (r : ring_buffer) (q : list (list char)) :
  size r = Z.of_nat (length q) →
  0 ≤ latest_index r < size r →
  ∀ (m k : nat) (lines : list (option block)) (out : list (list char)) (oldest : Z),
    (m + k = length q)%nat →
    0 ≤ oldest ≤ size r →
    (oldest = latest_index r + 1 + Z.of_nat k ∨
     oldest = latest_index r + 1 + Z.of_nat k - size r) →
    (∀ (t : nat) (text : list char),
       (k ≤ t)%nat → q !! t = Some text →
       slot_text <$> zlookup lines (slot_of r (Z.of_nat t)) = Some (Some text)) →
    ∃ lines', print_lines m (size r) oldest lines out = Some (lines', out ++ drop k q).
Proof.
  intros Hsize Hlatest m.
  induction m as [|m IH]; intros k lines out oldest Hmk Hold Hcong Hslots; simpl.
  - exists lines. rewrite drop_ge by lia. by rewrite app_nil_r.
  - destruct (q !! k) as [text|] eqn:Hk; [|apply lookup_ge_None in Hk; lia].
    pose proof (Hslots k text ltac:(lia) Hk) as Hslot.
    assert ((if decide (size r ≤ oldest) then 0 else oldest) = slot_of r (Z.of_nat k)) as ->.
    { unfold slot_of. split_decide; lia. }
    destruct (zlookup lines (slot_of r (Z.of_nat k))) as [slot|] eqn:Hl; [|done].
    simpl in Hslot. injection Hslot as Hslot. simpl.
    unfold slot_text in Hslot. destruct slot as [blk|]; [|done]. simpl in *.
    rewrite Hslot. simpl.
    pose proof (zlookup_lt _ _ _ Hl) as Hrange.
    destruct (IH (S k) (<[Z.to_nat (slot_of r (Z.of_nat k)) := None]> lines)
                (out ++ [text]) (slot_of r (Z.of_nat k) + 1)) as [lines' ->].
    + lia.
    + unfold slot_of in *. split_decide; lia.
    + unfold slot_of. split_decide; lia.
    + intros t text' Ht Hq.
      assert (t < length q)%nat by (by apply lookup_lt_Some in Hq).
      rewrite <- (Hslots t text') by (done || lia).
      f_equal. unfold zlookup.
      assert (slot_of r (Z.of_nat t) ≠ slot_of r (Z.of_nat k) ∧ 0 ≤ slot_of r (Z.of_nat t))
        as [Hne Hpos].
      { unfold slot_of. split_decide; lia. }
      rewrite !decide_True by done.
      apply list_lookup_insert_ne. lia.
    + exists lines'. rewrite <- app_assoc. simpl.
      by rewrite (drop_S q text k).
Qed.

(** A live buffer is drained into the strings it holds, oldest first, and is
    null afterwards. *)
Lemma print_ring_buffer_represents (r : ring_buffer) (q : list (list char)) :
  represents r q →
  print_ring_buffer r =
    Some ({| latest_index := latest_index r; capacity := capacity r;
             size := size r; line := None |}, q).
Proof.
  intros (lines & Hline & Hlen & Hsize & Hcap & Hlatest & Hslots).
  unfold print_ring_buffer. rewrite Hline.
  destruct (decide (size r = 0)) as [H0|Hpos].
  - rewrite H0. simpl. destruct q; [done|]. simpl in Hsize. lia.
  - destruct Hlatest as [Hlatest _].
    destruct (print_lines_spec r q Hsize Hlatest (length q) 0 lines []
                (latest_index r + 1)) as [lines' Hp]; [lia|lia|lia| |].
    + intros t text _. apply Hslots.
    + rewrite Hsize at 1. rewrite Nat2Z.id, Hp. done.
Qed.

Lemma stored_text_eq (ln ln' : list char) (len : Z) (text : list char) :
  zstore ln (len - 1) NUL = Some ln' →
  cstring ln' = Some text →
  stored_text (ln, len) = text.
Proof. intros Hs Hc. unfold stored_text. simpl. rewrite Hs. simpl. by rewrite Hc. Qed.

Lemma enqueue_all_represents (recs : list (list char * Z)) (r r' : ring_buffer)
    (q : list (list char)) :
  represents r q →
  enqueue_all r recs = Some r' →
  capacity r' = capacity r ∧
  represents r' (foldl (push (capacity r)) q (stored_text <$> recs)).
Proof.
  revert r q. induction recs as [|[ln len] recs IH]; intros r q Hr Hall; simpl in *.
  - by injection Hall as <-.
  - destruct (enqueue r ln len) as [[r1 ln1]|] eqn:Henq; [|done]. simpl in Hall.
    destruct (enqueue_represents _ _ _ _ _ _ Hr Henq) as (Hcap & Hs & text & Hc & Hr1).
    rewrite (stored_text_eq ln ln1 len text) by done.
    destruct (IH r1 _ Hr1 Hall) as [Hcap' Hr']. rewrite Hcap in *. done.
Qed.

(** Pushing into a bounded queue keeps the newest [cap] elements. *)
Lemma foldl_push (cap : Z) (texts q : list (list char)) :
  1 ≤ cap →
  Z.of_nat (length q) ≤ cap →
  foldl (push cap) q texts =
    drop (length (q ++ texts) - Z.to_nat cap) (q ++ texts).
Proof.
  intros Hcap. revert q. induction texts as [|x texts IH]; intros q Hq; simpl.
  - rewrite app_nil_r.
    by replace (length q - Z.to_nat cap)%nat with 0%nat by lia.
  - unfold push at 2. destruct (decide (Z.of_nat (length q) < cap)).
    + rewrite IH by (rewrite length_app; simpl; lia).
      rewrite <- app_assoc. done.
    + rewrite IH by (rewrite length_app, length_drop; simpl; lia).
      rewrite <- app_assoc. simpl.
      rewrite !length_app, length_drop. simpl.
      replace (length q - 1 + S (length texts) - Z.to_nat cap)%nat with (length texts) by lia.
      replace (length q + S (length texts) - Z.to_nat cap)%nat with (1 + length texts)%nat by lia.
      rewrite <- drop_drop. f_equal.
      destruct q; [simpl in *; lia|done].
Qed.

(** Buffer order, for calls of [enqueue] that stay within their blocks: after
    any sequence of calls on a fresh buffer of capacity [cap >= 1], the drain
    prints the strings of the last [cap] calls (all of them, if there were
    fewer), oldest first, and leaves the buffer null. *)
Lemma drain_after_enqueues (cap : Z) (recs : list (list char * Z)) (r : ring_buffer) :
  1 ≤ cap →
  enqueue_all (ring_buffer_init cap) recs = Some r →
  ∃ r', print_ring_buffer r =
          Some (r', drop (length recs - Z.to_nat cap) (stored_text <$> recs)) ∧
        line r' = None.
Proof.
  intros Hcap Hall.
  destruct (enqueue_all_represents recs (ring_buffer_init cap) r [])
    as [_ Hr]; [apply represents_init; lia|done|].
  simpl in Hr. rewrite foldl_push in Hr by (simpl; lia).
  simpl in Hr. rewrite length_fmap in Hr.
  eexists. split; [by apply print_ring_buffer_represents|done].
Qed.

(** ** Reading a record *)

Lemma read_record_prefix (d : char) (s : list char) :
  ∃ rest, s = read_record d s ++ rest.
Proof.
  induction s as [|c s [rest IH]]; simpl; [by exists []|].
  destruct (decide (c = d)); [by exists s|].
  exists rest. simpl. by rewrite <- IH.
Qed.

Lemma getdelim_inv (fs : filesystem) (d : char) (f0 f : FILE) (buf : list char) (n : Z) :
  getdelim fs d f0 = Some (buf, n, f) →
  ∃ rec, rec ≠ [] ∧
    rec = read_record d (drop (Z.to_nat (offset f0)) (file_content fs f0)) ∧
    buf = rec ++ [NUL] ∧ n = Z.of_nat (length rec) ∧
    f = {| path := path f0; offset := offset f0 + n |}.
Proof.
  unfold getdelim. intros H.
  destruct (read_record d _) as [|c rec] eqn:Hr; [done|].
  injection H as <- <- <-. by exists (c :: rec).
Qed.


(** ** Relations kept by the polling loop

    A reflexive and transitive relation between states that every step of
    the loop keeps (a change of a stream, the handling of a record, the test
    for the end marker) relates the states before and after any run. *)

Section Runs.
Variable p : mtail_params.
Variable R : state → state → Prop.

Hypothesis R_refl : ∀ st, R st st.
Hypothesis R_trans : ∀ st1 st2 st3, R st1 st2 → R st2 st3 → R st1 st3.
Hypothesis R_stream : ∀ st (n : nat) fd f,
  f_array st !! n = Some fd →
  stream_step (fp fd) f →
  R st (set_files st (<[n := set_fp fd f]> (f_array st))).
Hypothesis R_emit : ∀ i buf n pfn st st' pfn' buf',
  emit_record p i buf n pfn st = Some (st', pfn', buf') → R st st'.
Hypothesis R_check : ∀ i buf n st st' brk,
  check_end_marker p i buf n st = Some (st', brk) → R st st'.

Lemma close_files_R (n : nat) (st : state) (arr' : list file_data) :
  close_files (f_array st) n = Some arr' → R st (set_files st arr').
Proof using R_refl R_trans R_stream.
  revert st. induction n as [|n IH]; intros st H; simpl in H.
  - injection H as <-. by destruct st.
  - destruct (f_array st !! n) as [fd|] eqn:Hfd; [|done]. simpl in H.
    destruct (fp fd); [|done]. simpl in H.
    eapply R_trans; [apply (R_stream st n fd None); [done|by left]|].
    by apply (IH (set_files st (<[n:=set_fp fd None]> (f_array st)))).
Qed.

Lemma open_files_from_R (fs : filesystem) (names : list string) (i : nat)
    (st : state) (arr' : list file_data) (opened : bool) :
  open_files_from fs names i (f_array st) = Some (arr', opened) →
  R st (set_files st arr').
Proof using R_refl R_trans R_stream.
  revert i st. induction names as [|name names IH]; intros i st H; simpl in H.
  - injection H as <- <-. by destruct st.
  - destruct (f_array st !! i) as [fd|] eqn:Hfd; [|done]. simpl in H.
    destruct (fp fd) eqn:Hfp.
    + by apply (IH (S i)).
    + destruct (fopen fs name) as [f|] eqn:Hopen.
      * assert (stream_step (fp fd) (Some f)) as Hstep.
        { right. left. split; [done|]. exists name. unfold fopen in Hopen.
          destruct (fs name); [|done]. by injection Hopen as <-. }
        eapply R_trans; [by apply (R_stream st i fd (Some f))|].
        by apply (IH (S i) (set_files st (<[i:=set_fp fd (Some f)]> (f_array st)))).
      * destruct (close_files (f_array st) i) as [arr1|] eqn:Hc; [|done].
        injection H as <- <-. by apply (close_files_R i).
Qed.

Lemma read_records_R (fuel : nat) (fs : filesystem) (i : Z) (pfn : bool)
    (st st' : state) :
  read_records fuel p fs i pfn st = Ok st' → R st st'.
Proof using R_refl R_trans R_stream R_emit R_check.
  revert pfn st. induction fuel as [|fuel IH]; intros pfn st H; simpl in H; [done|].
  destruct (zlookup (f_array st) i) as [fd|] eqn:Hfd; [|done]. simpl in H.
  destruct (fp fd) as [f|] eqn:Hfp; [|done]. simpl in H.
  destruct (getdelim fs (f_delim fd) f) as [[[buf n] f']|] eqn:Hget.
  - apply zlookup_Some in Hfd as [_ Hfd].
    assert (stream_step (fp fd) (Some f')) as Hstep.
    { right. right. left. exists f, n.
      apply getdelim_inv in Hget as (rec & Hne & _ & _ & -> & ->).
      split; [done|]. split; [|done]. destruct rec; [done|simpl; lia]. }
    pose proof (R_stream st _ fd (Some f') Hfd Hstep) as H0.
    fold (set_file st i (set_fp fd (Some f'))) in H0.
    destruct (emit_record p i buf n pfn (set_file st i (set_fp fd (Some f'))))
      as [[[st1 pfn1] buf1]|] eqn:He; [|done]. simpl in H.
    destruct (check_end_marker p i buf1 n st1) as [[st2 brk]|] eqn:Hc; [|done].
    simpl in H.
    assert (R st st2) as H2.
    { eapply R_trans; [done|]. eapply R_trans; [by eapply R_emit|by eapply R_check]. }
    destruct brk.
    + by injection H as <-.
    + eapply R_trans; [done|]. by eapply IH.
  - by injection H as <-.
Qed.

Lemma read_file_R (fs : filesystem) (i : Z) (st st' : state) :
  read_file p fs i st = Ok st' → R st st'.
Proof using R_refl R_trans R_stream R_emit R_check.
  unfold read_file. intros H.
  destruct (zlookup (f_array st) i) as [fd|]; [|done].
  cbn [mbind result_bind defined] in H.
  destruct (fp fd) as [f|]; [|done].
  cbn [mbind result_bind defined] in H.
  by eapply read_records_R.
Qed.

Lemma poll_files_R (fs : filesystem) (idx : list Z) (st st' : state) :
  poll_files p fs idx st = Ok st' → R st st'.
Proof using R_refl R_trans R_stream R_emit R_check.
  revert st. induction idx as [|i idx IH]; intros st H; simpl in H.
  - by injection H as <-.
  - destruct (read_file p fs i st) as [st1| |] eqn:H1; try done. simpl in H.
    eapply R_trans; [by eapply read_file_R|by apply IH].
Qed.

Lemma follow_R (rounds : list round) (st st' : state) (ended : bool) :
  follow p rounds st = Ok (st', ended) → R st st'.
Proof using R_refl R_trans R_stream R_emit R_check.
  revert st. induction rounds as [|r rounds IH]; intros st H; simpl in H.
  - by injection H as <- <-.
  - destruct (open_files (disk r) (files p) (f_array st)) as [[arr opened]|] eqn:Ho;
      [|done]. simpl in H.
    apply open_files_from_R in Ho.
    destruct opened.
    + destruct (poll_files p (disk r) (seqZ 0 (num_files p)) (set_files st arr))
        as [st1| |] eqn:Hp; try done. simpl in H.
      apply poll_files_R in Hp.
      destruct (stop_conditions_met r).
      * injection H as <- <-. by eapply R_trans.
      * eapply R_trans; [done|]. eapply R_trans; [done|]. by apply IH.
    + by injection H as <- <-.
Qed.
End Runs.

(** ** The two halves of the loop body *)

(** What the first half of the body does, case by case. *)
Lemma emit_record_inv (p : mtail_params) (i : Z) (buf : list char) (n : Z)
    (pfn : bool) (st st' : state) (pfn' : bool) (buf' : list char) :
  emit_record p i buf n pfn st = Some (st', pfn', buf') →
  ∃ c, zlookup buf 0 = Some c ∧
    ((c = end_marker p ∧ st' = st ∧ pfn' = pfn ∧ buf' = buf) ∨
     (c ≠ end_marker p ∧
      ∃ fd hdr,
        zlookup (f_array st) i = Some fd ∧
        ((hdr = [] ∧ last_file_printed st' = last_file_printed st ∧ pfn' = pfn ∧
          (pfn = false ∨ last_file_printed st = i)) ∨
         (∃ name, zlookup (files p) i = Some name ∧ hdr = [Header i name] ∧
            last_file_printed st' = i ∧ pfn = true ∧ pfn' = false ∧
            last_file_printed st ≠ i)) ∧
        ((end_reached fd = true ∧ f_array st' = f_array st ∧
          log st' = log st ++ hdr ++ [Direct i buf] ∧ buf' = buf ∧
          is_Some (cstring buf)) ∨
         (end_reached fd = false ∧
          ∃ r, enqueue (rb fd) buf (n + 1) = Some (r, buf') ∧
               f_array st' = <[Z.to_nat i := set_rb fd r]> (f_array st) ∧
               log st' = log st ++ hdr ++ [Enqueued i buf])))).
Proof.
  unfold emit_record. intros H.
  destruct (zlookup buf 0) as [c|]; [|done]. simpl in H.
  exists c. split; [done|].
  destruct (decide (c ≠ end_marker p)) as [Hc|Hc].
  - right. split; [done|].
    destruct (pfn && bool_decide (last_file_printed st ≠ i)) eqn:Hhdr.
    + apply andb_prop in Hhdr as [-> Hne%bool_decide_eq_true].
      destruct (zlookup (files p) i) as [name|] eqn:Hname; [|done]. simpl in H.
      destruct (zlookup (f_array st) i) as [fd|] eqn:Hfd; [|done]. simpl in H.
      exists fd, [Header i name]. split; [done|].
      destruct (end_reached fd) eqn:Hend.
      * destruct (cstring buf) as [text|] eqn:Ht; [|done]. simpl in H.
        injection H as <- <- <-. simpl. rewrite <- app_assoc.
        split; [right; by exists name|]. left. by eauto 10.
      * destruct (enqueue (rb fd) buf (n + 1)) as [[r b]|] eqn:He; [|done]. simpl in H.
        injection H as <- <- <-. simpl. rewrite <- app_assoc.
        split; [right; by exists name|]. right. by eauto 10.
    + simpl in H.
      destruct (zlookup (f_array st) i) as [fd|] eqn:Hfd; [|done]. simpl in H.
      exists fd, []. split; [done|].
      assert (pfn = false ∨ last_file_printed st = i) as Hno.
      { destruct pfn; [|by left]. right. simpl in Hhdr.
        apply bool_decide_eq_false in Hhdr. by apply dec_stable. }
      destruct (end_reached fd) eqn:Hend.
      * destruct (cstring buf) as [text|] eqn:Ht; [|done]. simpl in H.
        injection H as <- <- <-. simpl.
        split; [by left|]. left. by eauto 10.
      * destruct (enqueue (rb fd) buf (n + 1)) as [[r b]|] eqn:He; [|done]. simpl in H.
        injection H as <- <- <-. simpl.
        split; [by left|]. right. by eauto 10.
  - left. apply dec_stable in Hc. by injection H as <- <- <-.
Qed.

(** What the second half of the body does, case by case. *)
Lemma check_end_marker_inv (p : mtail_params) (i : Z) (buf : list char) (n : Z)
    (st st' : state) (brk : bool) :
  check_end_marker p i buf n st = Some (st', brk) →
  ∃ c, zlookup buf (n - 1) = Some c ∧
    ((c ≠ end_marker p ∧ st' = st ∧ brk = false) ∨
     (c = end_marker p ∧ brk = true ∧
      ∃ fd f move_by,
        zlookup (f_array st) i = Some fd ∧ fp fd = Some f ∧
        rewind_distance buf (end_marker p) n = Some move_by ∧
        last_file_printed st' = last_file_printed st ∧
        ((end_reached fd = true ∧ log st' = log st ∧
          f_array st' =
            <[Z.to_nat i := set_fp fd (Some (fseek_cur f (- move_by)))]> (f_array st)) ∨
         (end_reached fd = false ∧
          ∃ r texts,
            print_ring_buffer (rb fd) = Some (r, texts) ∧
            log st' = log st ++ [Drained i texts] ∧
            f_array st' =
              <[Z.to_nat i := {| fp := Some (fseek_cur f (- move_by)); rb := r;
                                 end_reached := true; f_delim := end_marker p |}]>
                (f_array st))))).
Proof.
  unfold check_end_marker. intros H.
  destruct (zlookup buf (n - 1)) as [c|]; [|done]. simpl in H.
  exists c. split; [done|].
  destruct (decide (c = end_marker p)) as [Hc|Hc].
  - right. split; [done|].
    destruct (zlookup (f_array st) i) as [fd|] eqn:Hfd; [|done]. simpl in H.
    destruct (end_reached fd) eqn:Hend.
    + simpl in H.
      destruct (rewind_distance buf (end_marker p) n) as [move_by|]; [|done]. simpl in H.
      destruct (fp fd) as [f|] eqn:Hf; [|done]. simpl in H.
      injection H as <- <-. split; [done|].
      exists fd, f, move_by. repeat split; try done. by left.
    + destruct (print_ring_buffer (rb fd)) as [[r texts]|] eqn:Hp; [|done]. simpl in H.
      destruct (rewind_distance buf (end_marker p) n) as [move_by|]; [|done]. simpl in H.
      destruct (fp fd) as [f|] eqn:Hf; [|done]. simpl in H.
      injection H as <- <-. split; [done|].
      exists fd, f, move_by. repeat split; try done. right. split; [done|].
      by exists r, texts.
  - left. by injection H as <- <-.
Qed.

(** ** C5: the scanner *)

(** C5 (the code departs from it).  [find_end_index (buf, marker, limit)] is to
    return "not found" when none of the first [limit] bytes is the marker.
    For the buffer ["ab"], whose terminating NUL lies at index 2, the NUL as
    marker and [limit = 2], neither of the first two bytes is the marker, yet
    the function returns 2: the loop reads [buf[i]] before testing
    [i < limit], and the final test reads [buf[limit]]. *)
Theorem find_end_index_reads_buf_limit :
  zlookup (text "ab" ++ [NUL]) 0 ≠ Some NUL ∧
  zlookup (text "ab" ++ [NUL]) 1 ≠ Some NUL ∧
  find_end_index (text "ab" ++ [NUL]) NUL 2 = Some 2.
Proof. repeat split; by vm_compute. Qed.

(** ** C10: draining twice *)

(** A drain leaves [rb->line] null. *)
Lemma print_ring_buffer_null (r r' : ring_buffer) (out : list (list char)) :
  print_ring_buffer r = Some (r', out) → line r' = None.
Proof.
  unfold print_ring_buffer. intros H.
  destruct (line r) as [lines|] eqn:Hline.
  - destruct (print_lines _ _ _ _ _) as [[lines' out']|]; [|done]. simpl in H.
    by injection H as <- <-.
  - by injection H as <- <-.
Qed.

(** C10.  After [print_ring_buffer] has run, [rb->line] is null, and a second
    call returns at once: it prints nothing and leaves the buffer, in which
    nothing is left to free, as it is. *)
Theorem print_ring_buffer_twice (r r' : ring_buffer) (out : list (list char)) :
  print_ring_buffer r = Some (r', out) →
  line r' = None ∧ print_ring_buffer r' = Some (r', []).
Proof.
  intros Hnull%print_ring_buffer_null. split; [done|].
  unfold print_ring_buffer. by rewrite Hnull.
Qed.

Lemma print_ring_buffer_twice_witness :
  line {| latest_index := 0; capacity := 1; size := 1; line := None |} = None ∧
  print_ring_buffer {| latest_index := 0; capacity := 1; size := 1; line := None |}
  = Some ({| latest_index := 0; capacity := 1; size := 1; line := None |}, []).
Proof.
  apply (print_ring_buffer_twice
           {| latest_index := 0; capacity := 1; size := 1;
              line := Some [Some {| alloc := 3; bytes := text "a" ++ [LF; NUL] |}] |}
           _ [text "a" ++ [LF]]).
  reflexivity.
Defined.

(** ** C3: buffer order *)

(** C3 (the code departs from it).  On a buffer of capacity 1 the record
    ["\n"] is enqueued with [len = 2], which allocates a block of 2 bytes for
    slot 0.  The record ["a\n"] follows with [len = 3]: the block is kept,
    because its length is taken to be the size of a pointer, and [strncpy] writes
    3 bytes into it.  The second call is therefore undefined, and no drain
    prints ["a\n"]. *)
Theorem enqueue_overruns_block :
  (∃ r, enqueue (ring_buffer_init 1) rec_empty_line.1 rec_empty_line.2
        = Some (r, rec_empty_line.1) ∧
        line r = Some [Some {| alloc := 2; bytes := [LF; NUL] |}] ∧
        strncpy rec_a.1 (Z.to_nat rec_a.2) = Some (text "a" ++ [LF; NUL]) ∧
        enqueue r rec_a.1 rec_a.2 = None) ∧
  enqueue_all (ring_buffer_init 1) [rec_empty_line; rec_a] = None.
Proof. split; [eexists; repeat split; reflexivity | reflexivity]. Qed.

(** ** Properties of every file that the polling loop keeps *)

Section PerFile.
Variable p : mtail_params.
Variable P : file_data → Prop.

Hypothesis P_stream : ∀ fd f, P fd → stream_step (fp fd) f → P (set_fp fd f).
Hypothesis P_enqueue : ∀ fd r ln len ln',
  P fd → end_reached fd = false →
  enqueue (rb fd) ln len = Some (r, ln') → P (set_rb fd r).
Hypothesis P_drain : ∀ fd r texts f off,
  P fd → end_reached fd = false → fp fd = Some f →
  print_ring_buffer (rb fd) = Some (r, texts) →
  P {| fp := Some (fseek_cur f off); rb := r; end_reached := true;
       f_delim := end_marker p |}.

Lemma keeps_refl (st : state) : keeps P st st.
Proof. by intros H. Qed.

Lemma keeps_trans (st1 st2 st3 : state) :
  keeps P st1 st2 → keeps P st2 st3 → keeps P st1 st3.
Proof. intros H1 H2 H. by apply H2, H1. Qed.

Lemma keeps_stream (st : state) (n : nat) (fd : file_data) (f : option FILE) :
  f_array st !! n = Some fd →
  stream_step (fp fd) f →
  keeps P st (set_files st (<[n := set_fp fd f]> (f_array st))).
Proof using P_stream.
  intros Hfd Hstep Hall. simpl. apply Forall_insert; [done|].
  apply P_stream; [|done]. by eapply Forall_lookup_1.
Qed.

Lemma keeps_emit i buf n pfn st st' pfn' buf' :
  emit_record p i buf n pfn st = Some (st', pfn', buf') → keeps P st st'.
Proof using P_enqueue.
  intros (c & _ & [(_ & -> & _)|(_ & fd & hdr & Hfd & _ & Hcase)])%emit_record_inv Hall;
    [done|].
  destruct Hcase as [(_ & -> & _)|(Hend & r & Henq & -> & _)]; [done|].
  apply zlookup_Some in Hfd as [_ Hfd].
  apply Forall_insert; [done|].
  eapply P_enqueue; [by eapply Forall_lookup_1|done..].
Qed.

Lemma keeps_check i buf n st st' brk :
  check_end_marker p i buf n st = Some (st', brk) → keeps P st st'.
Proof using P_stream P_drain.
  intros (c & _ & [(_ & -> & _)|(_ & _ & fd & f & m & Hfd & Hfp & _ & _ & Hcase)])
    %check_end_marker_inv Hall; [done|].
  apply zlookup_Some in Hfd as [_ Hfd].
  pose proof (Forall_lookup_1 _ _ _ _ Hall Hfd) as HP.
  destruct Hcase as [(_ & _ & ->)|(Hend & r & texts & Hp & _ & ->)];
    (apply Forall_insert; [done|]).
  - apply P_stream; [done|]. right. right. right. by exists f, (- m).
  - by eapply P_drain.
Qed.

Lemma read_file_Forall fs i st st' :
  read_file p fs i st = Ok st' →
  Forall P (f_array st) → Forall P (f_array st').
Proof using P_stream P_enqueue P_drain.
  apply (read_file_R p (keeps P) keeps_refl keeps_trans keeps_stream
           keeps_emit keeps_check).
Qed.

Lemma poll_files_Forall fs idx st st' :
  poll_files p fs idx st = Ok st' →
  Forall P (f_array st) → Forall P (f_array st').
Proof using P_stream P_enqueue P_drain.
  apply (poll_files_R p (keeps P) keeps_refl keeps_trans keeps_stream
           keeps_emit keeps_check).
Qed.

Lemma open_files_Forall fs names (arr arr' : list file_data) opened :
  open_files fs names arr = Some (arr', opened) →
  Forall P arr → Forall P arr'.
Proof using P_stream.
  intros H.
  by apply (open_files_from_R (keeps P) keeps_refl keeps_trans keeps_stream
              fs names 0%nat {| f_array := arr; last_file_printed := 0; log := [] |}
              arr' opened).
Qed.

Lemma follow_Forall rounds st st' ended :
  follow p rounds st = Ok (st', ended) →
  Forall P (f_array st) → Forall P (f_array st').
Proof using P_stream P_enqueue P_drain.
  apply (follow_R p (keeps P) keeps_refl keeps_trans keeps_stream
           keeps_emit keeps_check).
Qed.
End PerFile.

(** ** The loops end *)

Lemma cursor_ok_stream (fd : file_data) (f : option FILE) :
  cursor_ok fd → stream_step (fp fd) f → cursor_ok (set_fp fd f).
Proof.
  intros Hok Hstep g Hg. simpl in Hg. subst f.
  destruct Hstep as [?|[(_ & name & [= ->])|[(f & n & Hf & Hn & [= ->])|(f & off & Hf & [= ->])]]];
    simpl; [done|lia|specialize (Hok f Hf); lia|].
  specialize (Hok f Hf). unfold fseek_cur. by destruct (decide _).
Qed.

Lemma cursor_ok_init (p : mtail_params) : Forall cursor_ok (f_array (init_state p)).
Proof. apply Forall_replicate. by intros f. Qed.

Lemma cursor_ok_enqueue (fd : file_data) (r : ring_buffer) (ln : list char)
    (len : Z) (ln' : list char) :
  cursor_ok fd → end_reached fd = false →
  enqueue (rb fd) ln len = Some (r, ln') → cursor_ok (set_rb fd r).
Proof. by intros Hok _ _. Qed.

Lemma cursor_ok_drain (p : mtail_params) (fd : file_data) (r : ring_buffer)
    (texts : list (list char)) (f : FILE) (off : Z) :
  cursor_ok fd → end_reached fd = false → fp fd = Some f →
  print_ring_buffer (rb fd) = Some (r, texts) →
  cursor_ok {| fp := Some (fseek_cur f off); rb := r; end_reached := true;
               f_delim := end_marker p |}.
Proof.
  intros Hok _ Hf _ g [= <-]. specialize (Hok f Hf).
  unfold fseek_cur. by destruct (decide _).
Qed.

Lemma cursor_ok_read_file (p : mtail_params) (fs : filesystem) (i : Z) (st st' : state) :
  read_file p fs i st = Ok st' →
  Forall cursor_ok (f_array st) → Forall cursor_ok (f_array st').
Proof.
  apply (read_file_Forall p cursor_ok cursor_ok_stream cursor_ok_enqueue
           (cursor_ok_drain p)).
Qed.

Lemma cursor_ok_poll_files (p : mtail_params) (fs : filesystem) (idx : list Z)
    (st st' : state) :
  poll_files p fs idx st = Ok st' →
  Forall cursor_ok (f_array st) → Forall cursor_ok (f_array st').
Proof.
  apply (poll_files_Forall p cursor_ok cursor_ok_stream cursor_ok_enqueue
           (cursor_ok_drain p)).
Qed.

Lemma read_record_length (d : char) (s : list char) :
  (length (read_record d s) ≤ length s)%nat.
Proof.
  destruct (read_record_prefix d s) as [rest H].
  rewrite H at 2. rewrite length_app. lia.
Qed.

(** The file that the first half of the body works on keeps its stream. *)
Lemma emit_record_stream p i buf n pfn st st' pfn' buf' fd :
  emit_record p i buf n pfn st = Some (st', pfn', buf') →
  zlookup (f_array st) i = Some fd →
  ∃ fd', zlookup (f_array st') i = Some fd' ∧ fp fd' = fp fd ∧
         f_delim fd' = f_delim fd.
Proof.
  intros (c & _ & [(_ & -> & _)|(_ & fd0 & hdr & Hfd0 & _ & Hcase)])%emit_record_inv Hfd;
    [by exists fd|].
  destruct Hcase as [(_ & -> & _)|(Hend & r & Henq & -> & _)]; [by exists fd|].
  exists (set_rb fd0 r). rewrite (zlookup_insert_eq _ _ _ fd) by done.
  rewrite Hfd in Hfd0. by injection Hfd0 as <-.
Qed.

(** The read loop ends before its bound: each iteration that stays in the
    loop moves the cursor forward. *)
Lemma read_records_total (p : mtail_params) (fs : filesystem) (i : Z) (fuel : nat) :
  ∀ (pfn : bool) (st : state) (fd : file_data) (f : FILE),
    zlookup (f_array st) i = Some fd →
    fp fd = Some f →
    0 ≤ offset f →
    (length (file_content fs f) - Z.to_nat (offset f) < fuel)%nat →
    read_records fuel p fs i pfn st ≠ OutOfFuel.
Proof.
  induction fuel as [|fuel IH]; intros pfn st fd f Hfd Hfp Hoff Hfuel; [lia|].
  simpl. rewrite Hfd. simpl. rewrite Hfp. simpl.
  destruct (getdelim fs (f_delim fd) f) as [[[buf n] f']|] eqn:Hget; [|done].
  apply getdelim_inv in Hget as (rec & Hne & Hrec & _ & Hn & Hf').
  pose proof (read_record_length (f_delim fd)
                (drop (Z.to_nat (offset f)) (file_content fs f))) as Hlen.
  rewrite <- Hrec, length_drop in Hlen.
  assert (0 < n) as Hpos by (destruct rec; [done|simpl in Hn; lia]).
  destruct (emit_record p i buf n pfn (set_file st i (set_fp fd (Some f'))))
    as [[[st1 pfn1] buf1]|] eqn:He; [|done]. simpl.
  destruct (emit_record_stream _ _ _ _ _ _ _ _ _ (set_fp fd (Some f')) He)
    as (fd1 & Hfd1 & Hfp1 & _).
  { simpl. by apply (zlookup_insert_eq _ _ _ fd). }
  destruct (check_end_marker p i buf1 n st1) as [[st2 brk]|] eqn:Hc; [|done]. simpl.
  destruct brk; [done|].
  apply check_end_marker_inv in Hc as (c & _ & [(_ & -> & _)|(_ & [=] & _)]).
  apply (IH pfn1 st1 fd1 f' Hfd1); [done|subst f'; simpl; lia|].
  subst f'. unfold file_content in *. simpl. lia.
Qed.

Lemma read_file_total (p : mtail_params) (fs : filesystem) (i : Z) (st : state) :
  Forall cursor_ok (f_array st) → read_file p fs i st ≠ OutOfFuel.
Proof.
  intros Hok. unfold read_file.
  destruct (zlookup (f_array st) i) as [fd|] eqn:Hfd; [|done].
  cbn [mbind result_bind defined].
  destruct (fp fd) as [f|] eqn:Hfp; [|done].
  cbn [mbind result_bind defined].
  apply (read_records_total p fs i _ _ st fd f); [done|done| |lia].
  apply zlookup_Some in Hfd as [_ Hfd].
  by apply (Forall_lookup_1 _ _ _ _ Hok Hfd).
Qed.

Lemma poll_files_total (p : mtail_params) (fs : filesystem) (idx : list Z) (st : state) :
  Forall cursor_ok (f_array st) → poll_files p fs idx st ≠ OutOfFuel.
Proof.
  revert st. induction idx as [|i idx IH]; intros st Hok; simpl; [done|].
  destruct (read_file p fs i st) as [st1| |] eqn:H1; simpl; [|done|].
  - apply IH. by apply (cursor_ok_read_file p fs i st).
  - by apply read_file_total in H1.
Qed.

(** The polling loop never exhausts the bound of its read loops. *)
Lemma follow_total (p : mtail_params) (rounds : list round) (st : state) :
  Forall cursor_ok (f_array st) → follow p rounds st ≠ OutOfFuel.
Proof.
  revert st. induction rounds as [|r rounds IH]; intros st Hok; simpl; [done|].
  destruct (open_files (disk r) (files p) (f_array st)) as [[arr opened]|] eqn:Ho;
    [|done]. cbn [mbind result_bind defined].
  apply (open_files_Forall cursor_ok cursor_ok_stream) in Ho; [|done].
  destruct opened; [|done].
  destruct (poll_files p (disk r) (seqZ 0 (num_files p)) (set_files st arr))
    as [st1| |] eqn:Hp; cbn [mbind result_bind]; [|done|].
  - destruct (stop_conditions_met r); [done|]. apply IH.
    by apply (cursor_ok_poll_files _ _ _ _ _ Hp).
  - by apply poll_files_total in Hp.
Qed.

Lemma main_total (p : mtail_params) (rounds : list round) :
  main p rounds ≠ OutOfFuel.
Proof.
  unfold main, print_file_content.
  pose proof (follow_total p rounds (init_state p) (cursor_ok_init p)) as H.
  destruct (follow p rounds (init_state p)) as [[st ended]| |]; [|done..].
  cbn [mbind result_bind]. destruct ended; [|done].
  by destruct (close_files (f_array st) (length (files p))).
Qed.

(** ** The boundary is crossed once *)

Lemma drains_app (i : Z) (l l' : list event) :
  drains i (l ++ l') = (drains i l + drains i l')%nat.
Proof.
  induction l as [|e l IH]; [done|]. simpl.
  destruct e; try done. destruct (decide _); simpl; by rewrite IH.
Qed.

Lemma once_refl (p : mtail_params) (st : state) : once p st st.
Proof. split; [done|]. intros i fd Hfd. exists fd. split; [done|]. by left. Qed.

Lemma once_trans (p : mtail_params) (st1 st2 st3 : state) :
  once p st1 st2 → once p st2 st3 → once p st1 st3.
Proof.
  intros [Hl12 H12] [Hl23 H23]. split; [congruence|]. intros i fd1 Hfd1.
  destruct (H12 i fd1 Hfd1) as (fd2 & Hfd2 & Hcase12).
  destruct (H23 i fd2 Hfd2) as (fd3 & Hfd3 & Hcase23).
  exists fd3. split; [done|].
  destruct Hcase12 as [(He & Hd & Hn)|(He & He' & Hd & Hn)],
           Hcase23 as [(He2 & Hd2 & Hn2)|(He2 & He2' & Hd2 & Hn2)].
  - left. repeat split; congruence.
  - right. repeat split; congruence.
  - right. repeat split; congruence.
  - congruence.
Qed.

Lemma once_stream (p : mtail_params) (st : state) (n : nat) (fd : file_data)
    (f : option FILE) :
  f_array st !! n = Some fd →
  stream_step (fp fd) f →
  once p st (set_files st (<[n := set_fp fd f]> (f_array st))).
Proof.
  intros Hfd _. split; [apply length_insert|]. intros i fd0 Hfd0. simpl.
  destruct (zlookup_insert_cases _ n (set_fp fd f) _ _ Hfd0) as [[-> ->]|[_ ->]].
  - rewrite zlookup_of_nat in Hfd0. rewrite Hfd in Hfd0. injection Hfd0 as <-.
    eexists. split; [done|]. by left.
  - eexists. split; [done|]. by left.
Qed.

Lemma once_emit (p : mtail_params) i buf n pfn st st' pfn' buf' :
  emit_record p i buf n pfn st = Some (st', pfn', buf') → once p st st'.
Proof.
  intros (c & _ & [(_ & -> & _)|(_ & fd & hdr & Hfd & Hhdr & Hcase)])%emit_record_inv;
    [apply once_refl|].
  assert (∀ j e, is_enqueue e = true ∨ (∃ b, e = Direct i b) →
            drains j (log st ++ hdr ++ [e]) = drains j (log st)) as Hdrains.
  { intros j e He. rewrite !drains_app.
    assert (drains j hdr = 0%nat) as ->.
    { by destruct Hhdr as [(-> & _)|(name & _ & -> & _)]. }
    destruct He as [He|[b ->]]; [destruct e; try done|]; simpl; lia. }
  destruct Hcase as [(_ & Harr & Hlog & _)|(Hend & r & _ & Harr & Hlog)];
    (split; [rewrite Harr; by rewrite ?length_insert|]);
    intros j fd0 Hfd0; rewrite Harr, Hlog.
  - exists fd0. split; [done|]. left. rewrite Hdrains by eauto. done.
  - rewrite Hdrains by (by left).
    pose proof (zlookup_lt _ _ _ Hfd) as Hi.
    destruct (zlookup_insert_cases _ (Z.to_nat i) (set_rb fd r) _ _ Hfd0) as [[-> ->]|[_ ->]].
    + rewrite Z2Nat.id in Hfd0 by lia. rewrite Hfd in Hfd0. injection Hfd0 as <-.
      eexists. split; [done|]. by left.
    + eexists. split; [done|]. by left.
Qed.

Lemma once_check (p : mtail_params) i buf n st st' brk :
  check_end_marker p i buf n st = Some (st', brk) → once p st st'.
Proof.
  intros (c & _ & [(_ & -> & _)|(_ & _ & fd & f & m & Hfd & Hfp & _ & _ & Hcase)])
    %check_end_marker_inv; [apply once_refl|].
  pose proof (zlookup_lt _ _ _ Hfd) as Hi.
  destruct Hcase as [(_ & Hlog & Harr)|(Hend & r & texts & _ & Hlog & Harr)];
    (split; [rewrite Harr; by rewrite length_insert|]);
    intros j fd0 Hfd0; rewrite Harr, Hlog.
  - destruct (zlookup_insert_cases _ (Z.to_nat i)
                (set_fp fd (Some (fseek_cur f (- m)))) _ _ Hfd0) as [[-> ->]|[_ ->]].
    + rewrite Z2Nat.id in Hfd0 by lia. rewrite Hfd in Hfd0. injection Hfd0 as <-.
      eexists. split; [done|]. by left.
    + eexists. split; [done|]. by left.
  - rewrite drains_app. simpl.
    match goal with |- context [<[_ := ?x]> _] => set (fd' := x) end.
    destruct (zlookup_insert_cases _ (Z.to_nat i) fd' _ _ Hfd0) as [[Hj ->]|[Hj ->]].
    + rewrite Z2Nat.id in Hj by lia. subst j.
      rewrite Hfd in Hfd0. injection Hfd0 as <-.
      exists fd'. split; [done|]. right.
      rewrite decide_True by done. repeat split; try done; lia.
    + rewrite Z2Nat.id in Hj by lia.
      exists fd0. split; [done|]. left.
      rewrite decide_False by done. repeat split; try done; lia.
Qed.

(** Over any stretch of the polling loop a file crosses the boundary at most
    once, and never back. *)
Lemma once_follow (p : mtail_params) (rounds : list round) (st st' : state)
    (ended : bool) :
  follow p rounds st = Ok (st', ended) → once p st st'.
Proof.
  apply (follow_R p (once p) (once_refl p) (once_trans p) (once_stream p)
           (once_emit p) (once_check p)).
Qed.

Lemma first_occurrence (bs : list char) (c : char) (m : nat) :
  bs !! m = Some c →
  ∃ k : nat, (k ≤ m)%nat ∧ bs !! k = Some c ∧ ∀ j : nat, (j < k)%nat → bs !! j ≠ Some c.
Proof.
  revert m. induction bs as [|b bs IH]; intros m Hm; [done|].
  destruct (decide (b = c)) as [->|Hb].
  - exists 0%nat. split; [lia|]. split; [done|]. intros j Hj. lia.
  - destruct m as [|m]; simpl in Hm; [congruence|].
    destruct (IH m Hm) as (k & Hk & Hat & Hbefore).
    exists (S k). split; [lia|]. split; [done|].
    intros [|j] Hj; simpl; [congruence|]. apply Hbefore. lia.
Qed.

(** A chunk whose last byte is the marker has a first marker, which the
    scanner finds. *)
Lemma find_end_index_defined (buf : list char) (marker : char) (n : Z) :
  zlookup buf (n - 1) = Some marker →
  ∃ k, 0 ≤ k < n ∧ find_end_index buf marker n = Some k.
Proof.
  intros [Hn H]%zlookup_Some.
  destruct (first_occurrence _ _ _ H) as (k & Hk & Hat & Hbefore).
  exists (Z.of_nat k). split; [lia|].
  apply find_end_index_first; [lia|by rewrite zlookup_of_nat|].
  intros j Hj. replace j with (Z.of_nat (Z.to_nat j)) by lia.
  rewrite zlookup_of_nat. apply Hbefore. lia.
Qed.


(** Without a slot at the index, [enqueue] accesses [rb->line] outside its
    bounds. *)
Lemma enqueue_no_slot (cap : Z) (ln : list char) (len : Z) :
  cap ≤ 0 → enqueue (ring_buffer_init cap) ln len = None.
Proof.
  intros Hcap. unfold enqueue, ring_buffer_init.
  cbn [line latest_index capacity mbind option_bind].
  destruct (zlookup (replicate (Z.to_nat cap) None) _) as [slot|] eqn:Hslot; [|done].
  apply zlookup_lt in Hslot. rewrite length_replicate in Hslot. lia.
Qed.


Lemma drainable_stream (p : mtail_params) (fd : file_data) (f : option FILE) :
  drainable p fd → stream_step (fp fd) f → drainable p (set_fp fd f).
Proof. by intros H _. Qed.

Lemma drainable_enqueue (p : mtail_params) (fd : file_data) (r : ring_buffer)
    (ln : list char) (len : Z) (ln' : list char) :
  drainable p fd → end_reached fd = false →
  enqueue (rb fd) ln len = Some (r, ln') → drainable p (set_rb fd r).
Proof.
  intros H Hend Henq _. left. simpl.
  destruct (H Hend) as [[q Hq]|Hinit].
  - destruct (enqueue_represents _ _ _ _ _ _ Hq Henq) as (_ & _ & t & _ & Hr).
    by eexists.
  - destruct (decide (0 ≤ num_lines p)) as [Hcap|Hneg].
    + rewrite Hinit in Henq.
      destruct (enqueue_represents _ _ _ _ _ _ (represents_init _ Hcap) Henq)
        as (_ & _ & t & _ & Hr).
      by eexists.
    + rewrite Hinit, enqueue_no_slot in Henq by lia. done.
Qed.

Lemma drainable_drain (p : mtail_params) (fd : file_data) (r : ring_buffer)
    (texts : list (list char)) (f : FILE) (off : Z) :
  drainable p fd → end_reached fd = false → fp fd = Some f →
  print_ring_buffer (rb fd) = Some (r, texts) →
  drainable p {| fp := Some (fseek_cur f off); rb := r; end_reached := true;
                 f_delim := end_marker p |}.
Proof. by intros _ _ _ _ ?. Qed.

Lemma drainable_init (p : mtail_params) : Forall (drainable p) (f_array (init_state p)).
Proof. apply Forall_replicate. intros _. by right. Qed.

(** At any point of the polling loop the buffer of a file that has not
    reached the end can be drained. *)
Lemma drainable_follow (p : mtail_params) (rounds : list round) (st st' : state)
    (ended : bool) :
  follow p rounds st = Ok (st', ended) →
  Forall (drainable p) (f_array st) → Forall (drainable p) (f_array st').
Proof.
  apply (follow_Forall p (drainable p) (drainable_stream p) (drainable_enqueue p)
           (drainable_drain p)).
Qed.

(** The transition: a record that ends in the marker, met before the end was
    reached, drains the buffer to [stdout], sets the flag and takes the end
    marker as delimiter. *)
Lemma check_end_marker_transition (p : mtail_params) (i : Z) (buf : list char)
    (n : Z) (st : state) (fd : file_data) (f : FILE) (r : ring_buffer)
    (texts : list (list char)) :
  zlookup (f_array st) i = Some fd →
  end_reached fd = false →
  fp fd = Some f →
  zlookup buf (n - 1) = Some (end_marker p) →
  print_ring_buffer (rb fd) = Some (r, texts) →
  ∃ st' fd',
    check_end_marker p i buf n st = Some (st', true) ∧
    log st' = log st ++ [Drained i texts] ∧
    stdout st' = stdout st ++ texts ∧
    zlookup (f_array st') i = Some fd' ∧
    end_reached fd' = true ∧ f_delim fd' = end_marker p ∧
    rb fd' = r ∧ line r = None.
Proof.
  intros Hfd Hend Hfp Hlast Hp.
  destruct (find_end_index_defined _ _ _ Hlast) as (k & Hk & Hfind).
  unfold check_end_marker. rewrite Hlast. simpl.
  rewrite decide_True by done. rewrite Hfd. simpl. rewrite Hend, Hp. simpl.
  unfold rewind_distance. rewrite Hfind. simpl. rewrite Hfp. simpl.
  eexists _, _. split; [done|]. simpl.
  rewrite (zlookup_insert_eq _ _ _ fd) by done.
  repeat split; try done.
  - unfold stdout. simpl. rewrite fmap_app, concat_app. simpl. by rewrite app_nil_r.
  - by apply (print_ring_buffer_null _ _ _ Hp).
Qed.

(** ** C1: the rewind *)







Lemma init_state_lookup (p : mtail_params) (st : state) (i : Z) (fd : file_data) :
  length (f_array st) = length (f_array (init_state p)) →
  zlookup (f_array st) i = Some fd →
  zlookup (f_array (init_state p)) i = Some (init_file p).
Proof.
  intros Hlen [Hi Hfd]%zlookup_Some. apply lookup_lt_Some in Hfd.
  apply zlookup_Some. split; [done|]. simpl in *.
  apply lookup_replicate. split; [done|]. rewrite length_replicate in Hlen. lia.
Qed.

(** ** C4: filler records *)

Lemma content_events_emit (p : mtail_params) i buf n pfn st st' pfn' buf' :
  emit_record p i buf n pfn st = Some (st', pfn', buf') →
  Forall (content_event_ok p) (log st) → Forall (content_event_ok p) (log st').
Proof.
  intros (c & Hc & [(_ & -> & _)|(Hne & fd & hdr & _ & Hhdr & Hcase)])%emit_record_inv Hall;
    [done|].
  assert (Forall (content_event_ok p) hdr) as Hh.
  { destruct Hhdr as [(-> & _)|(name & _ & -> & _)]; by repeat constructor. }
  assert (zlookup buf 0 ≠ Some (end_marker p)) as Hbuf by congruence.
  destruct Hcase as [(_ & _ & -> & _)|(_ & r & _ & _ & ->)];
    rewrite !Forall_app; repeat split; try done; by repeat constructor.
Qed.

Lemma content_events_check (p : mtail_params) i buf n st st' brk :
  check_end_marker p i buf n st = Some (st', brk) →
  Forall (content_event_ok p) (log st) → Forall (content_event_ok p) (log st').
Proof.
  intros (c & _ & [(_ & -> & _)|(_ & _ & fd & f & m & _ & _ & _ & _ & Hcase)])
    %check_end_marker_inv Hall; [done|].
  destruct Hcase as [(_ & -> & _)|(_ & r & texts & _ & -> & _)]; [done|].
  rewrite Forall_app. split; [done|]. by repeat constructor.
Qed.

(** Every record that the polling loop prints or enqueues starts with a byte
    other than the end marker. *)
Lemma content_events_follow (p : mtail_params) (rounds : list round) (st st' : state)
    (ended : bool) :
  follow p rounds st = Ok (st', ended) →
  Forall (content_event_ok p) (log st) → Forall (content_event_ok p) (log st').
Proof.
  apply (follow_R p (λ st st', Forall (content_event_ok p) (log st) →
                               Forall (content_event_ok p) (log st'))).
  - by intros st0.
  - intros st1 st2 st3 H12 H23 H. by apply H23, H12.
  - by intros st0 n fd f _ _.
  - apply content_events_emit.
  - apply content_events_check.
Qed.

(** C4.  A record whose first byte is the end marker passes the first half of
    the loop body without any effect, whether the end was reached or not:
    nothing is printed, nothing is enqueued, the state is the same.  And in the
    log of any run, no call that prints or enqueues a record carries such a
    record. *)
Theorem filler_record_suppressed (p : mtail_params) (i : Z) (buf : list char)
    (n : Z) (pfn : bool) (st : state) (rounds : list round) (st' : state)
    (ended : bool) (j : Z) :
  zlookup buf 0 = Some (end_marker p) →
  follow p rounds (init_state p) = Ok (st', ended) →
  emit_record p i buf n pfn st = Some (st, pfn, buf) ∧
  (Direct j buf ∉ log st') ∧
  (Enqueued j buf ∉ log st').
Proof.
  intros Hfirst Hrun. split.
  - unfold emit_record. rewrite Hfirst. simpl.
    by destruct (decide (end_marker p ≠ end_marker p)).
  - pose proof (content_events_follow _ _ _ _ _ Hrun (Forall_nil_2 _)) as Hall.
    split; intros [k Hk]%list_elem_of_lookup;
      by apply (Forall_lookup_1 _ _ _ _ Hall Hk).
Qed.

Lemma filler_record_suppressed_witness :
  emit_record params_two 0 [NUL; NUL] 1 true state_after_round1
  = Some (state_after_round1, true, [NUL; NUL]) ∧
  (Direct 0 [NUL; NUL] ∉ log state_after_round2) ∧
  (Enqueued 0 [NUL; NUL] ∉ log state_after_round2).
Proof.
  apply (filler_record_suppressed params_two 0 [NUL; NUL] 1 true state_after_round1
           [round1; round2] state_after_round2 true 0); reflexivity.
Defined.

(** ** C7: capacity 0 *)

(** C7 (as stated, it fails).  On a buffer of capacity 0, [enqueue] is not a
    call without effect: [rb->line] has no slot, and the call accesses
    [rb->line[0]]. *)
Lemma enqueue_capacity_0_not_noop :
  enqueue (ring_buffer_init 0) rec_a.1 rec_a.2 = None ∧
  enqueue (ring_buffer_init 0) rec_a.1 rec_a.2 ≠ Some (ring_buffer_init 0, rec_a.1).
Proof. split; [reflexivity|discriminate]. Qed.

Lemma unbuffered_stream (st : state) (n : nat) (fd : file_data) (f : option FILE) :
  f_array st !! n = Some fd →
  unbuffered st → unbuffered (set_files st (<[n := set_fp fd f]> (f_array st))).
Proof.
  intros Hfd [Hfiles Hlog]. split; [|done]. simpl.
  apply Forall_insert; [done|]. by apply (Forall_lookup_1 _ _ _ _ Hfiles Hfd).
Qed.

Lemma unbuffered_emit (p : mtail_params) i buf n pfn st st' pfn' buf' :
  emit_record p i buf n pfn st = Some (st', pfn', buf') →
  unbuffered st → unbuffered st'.
Proof.
  intros (c & _ & [(_ & -> & _)|(_ & fd & hdr & Hfd & Hhdr & Hcase)])%emit_record_inv
    [Hfiles Hlog]; [done|].
  apply zlookup_Some in Hfd as [_ Hfd].
  pose proof (Forall_lookup_1 _ _ _ _ Hfiles Hfd) as [Hend _].
  destruct Hcase as [(_ & Harr & Hl & _)|(Hend' & _)]; [|congruence].
  split; [by rewrite Harr|]. rewrite Hl, !Forall_app.
  repeat split; [done| |by repeat constructor].
  destruct Hhdr as [(-> & _)|(name & _ & -> & _)]; by repeat constructor.
Qed.

Lemma unbuffered_check (p : mtail_params) i buf n st st' brk :
  check_end_marker p i buf n st = Some (st', brk) →
  unbuffered st → unbuffered st'.
Proof.
  intros (c & _ & [(_ & -> & _)|(_ & _ & fd & f & m & Hfd & _ & _ & _ & Hcase)])
    %check_end_marker_inv [Hfiles Hlog]; [done|].
  apply zlookup_Some in Hfd as [_ Hfd].
  pose proof (Forall_lookup_1 _ _ _ _ Hfiles Hfd) as Hok.
  destruct Hcase as [(_ & Hl & Harr)|(Hend' & _)]; [|destruct Hok; congruence].
  split; [|by rewrite Hl]. rewrite Harr. by apply Forall_insert.
Qed.

Lemma unbuffered_init (p : mtail_params) : num_lines p = 0 → unbuffered (init_state p).
Proof.
  intros H0. split; [|by constructor]. simpl. apply Forall_replicate.
  unfold init_file. simpl. rewrite H0. done.
Qed.

Lemma unbuffered_follow (p : mtail_params) (rounds : list round) (st st' : state)
    (ended : bool) :
  follow p rounds st = Ok (st', ended) → unbuffered st → unbuffered st'.
Proof.
  apply (follow_R p (λ st st', unbuffered st → unbuffered st')).
  - by intros st0.
  - intros st1 st2 st3 H12 H23 H. by apply H23, H12.
  - intros st0 n fd f Hfd _. by apply unbuffered_stream.
  - apply unbuffered_emit.
  - apply unbuffered_check.
Qed.

(** C7, amended.  With [num_lines = 0] every file starts with the flag set and
    keeps it, so that the polling loop never calls [enqueue]: the buffers
    stay as [ring_buffer_init] made them.  Draining such a buffer prints
    nothing. *)
Theorem nothing_buffered_without_lines (p : mtail_params) (rounds : list round)
    (st : state) (ended : bool) :
  num_lines p = 0 →
  follow p rounds (init_state p) = Ok (st, ended) →
  Forall (λ fd, end_reached fd = true ∧ rb fd = ring_buffer_init 0) (f_array st) ∧
  Forall (λ e, is_enqueue e = false) (log st) ∧
  ∃ r, print_ring_buffer (ring_buffer_init 0) = Some (r, []) ∧ line r = None.
Proof.
  intros H0 Hrun.
  destruct (unbuffered_follow _ _ _ _ _ Hrun (unbuffered_init p H0)) as [Hfiles Hlog].
  split; [done|]. split; [done|]. by eexists.
Qed.

Lemma nothing_buffered_without_lines_witness :
  ∃ st,
    follow params_ab [round_ab] (init_state params_ab) = Ok (st, true) ∧
    Forall (λ fd, end_reached fd = true ∧ rb fd = ring_buffer_init 0) (f_array st) ∧
    Forall (λ e, is_enqueue e = false) (log st) ∧
    ∃ r, print_ring_buffer (ring_buffer_init 0) = Some (r, []) ∧ line r = None.
Proof.
  eexists. split; [reflexivity|].
  eapply (nothing_buffered_without_lines params_ab [round_ab] _ true); reflexivity.
Defined.

(** ** C9: the buffer and the flag *)

(** C9 (as stated, it fails).  With [num_lines = 0] a file starts with the flag
    set, while [ring_buffer_init] has allocated its buffer all the same (a
    block of zero bytes); no call of [print_ring_buffer] follows, and after
    a complete run the buffer is still there. *)
Lemma buffer_kept_without_lines :
  ∃ st fd,
    follow params_ab [round_ab] (init_state params_ab) = Ok (st, true) ∧
    zlookup (f_array st) 0 = Some fd ∧
    end_reached fd = true ∧
    line (rb fd) = Some [].
Proof. eexists _, _. repeat split; reflexivity. Qed.

Lemma enqueue_line (r r' : ring_buffer) (ln ln' : list char) (len : Z) :
  enqueue r ln len = Some (r', ln') → is_Some (line r').
Proof.
  unfold enqueue. intros H.
  destruct (line r) as [lines|]; [|done]. simpl in H.
  destruct (zlookup lines _) as [slot|]; [|done]. simpl in H.
  destruct (zstore ln (len - 1) NUL) as [ln1|]; [|done]. simpl in H.
  destruct (strncpy ln1 (Z.to_nat len)) as [copied|]; [|done]. simpl in H.
  destruct (write_block _ copied) as [blk'|]; [|done]. simpl in H.
  injection H as <- <-. by eexists.
Qed.

Lemma buffer_matches_flag_follow (p : mtail_params) (rounds : list round)
    (st st' : state) (ended : bool) :
  follow p rounds st = Ok (st', ended) →
  Forall buffer_matches_flag (f_array st) → Forall buffer_matches_flag (f_array st').
Proof.
  apply (follow_Forall p buffer_matches_flag).
  - by intros fd f H _.
  - intros fd r ln len ln' _ Hend [lines Hl]%enqueue_line.
    unfold buffer_matches_flag. simpl. rewrite Hl, Hend. by split.
  - intros fd r texts f off _ _ _ Hl%print_ring_buffer_null.
    unfold buffer_matches_flag. simpl. by rewrite Hl.
Qed.

Lemma buffer_matches_flag_init (p : mtail_params) :
  num_lines p ≠ 0 → Forall buffer_matches_flag (f_array (init_state p)).
Proof.
  intros Hn. apply Forall_replicate. unfold buffer_matches_flag, init_file. simpl.
  rewrite bool_decide_eq_false_2 by done. by split.
Qed.

(** C9, amended.  For [num_lines > 0], at the end of every round the buffer of
    a file is null exactly if the flag is set; and a buffer that is null is
    null after any further rounds: it is not allocated again. *)
Theorem buffer_null_iff_end_reached (p : mtail_params) (rounds1 rounds2 : list round)
    (st1 st2 : state) (ended : bool) (i : Z) (fd1 : file_data) :
  0 < num_lines p →
  follow p rounds1 (init_state p) = Ok (st1, false) →
  follow p rounds2 st1 = Ok (st2, ended) →
  zlookup (f_array st1) i = Some fd1 →
  (line (rb fd1) = None ↔ end_reached fd1 = true) ∧
  ∃ fd2,
    zlookup (f_array st2) i = Some fd2 ∧
    (line (rb fd2) = None ↔ end_reached fd2 = true) ∧
    (line (rb fd1) = None → line (rb fd2) = None).
Proof.
  intros Hn Hrun1 Hrun2 Hfd1.
  assert (num_lines p ≠ 0) as Hn0 by lia.
  pose proof (buffer_matches_flag_follow _ _ _ _ _ Hrun1 (buffer_matches_flag_init p Hn0))
    as Hall1.
  pose proof (buffer_matches_flag_follow _ _ _ _ _ Hrun2 Hall1) as Hall2.
  pose proof (once_follow _ _ _ _ _ Hrun2) as [_ Honce].
  destruct (Honce i fd1 Hfd1) as (fd2 & Hfd2 & Hcase).
  pose proof (proj1 (zlookup_Some _ _ _) Hfd1) as [_ Hfd1n].
  pose proof (proj1 (zlookup_Some _ _ _) Hfd2) as [_ Hfd2n].
  pose proof (Forall_lookup_1 _ _ _ _ Hall1 Hfd1n) as H1.
  pose proof (Forall_lookup_1 _ _ _ _ Hall2 Hfd2n) as H2.
  split; [done|]. exists fd2. split; [done|]. split; [done|].
  intros Hnull. apply H2. apply H1 in Hnull.
  destruct Hcase as [(He & _)|(He & _)]; congruence.
Qed.

Lemma buffer_null_iff_end_reached_witness :
  (line (rb file_A_after_round1) = None ↔ end_reached file_A_after_round1 = true) ∧
  ∃ fd2,
    zlookup (f_array state_after_round2) 0 = Some fd2 ∧
    (line (rb fd2) = None ↔ end_reached fd2 = true) ∧
    (line (rb file_A_after_round1) = None → line (rb fd2) = None).
Proof.
  apply (buffer_null_iff_end_reached params_two [round1] [round2]
           state_after_round1 state_after_round2 true 0 file_A_after_round1);
    [simpl; lia|reflexivity..].
Defined.

(** ** C6: a file that cannot be opened *)

(** The only value that [main] returns is [EXIT_SUCCESS]. *)
Lemma main_exit_code (p : mtail_params) (rounds : list round) (st : state) (code : Z) :
  main p rounds = Ok (st, Some code) → code = 0.
Proof.
  unfold main. destruct (print_file_content p rounds) as [[st0 returned]| |]; [|done..].
  cbn [mbind result_bind]. destruct returned; [|done]. by intros [= _ <-].
Qed.

(** C6 (the code departs from it).  Of two files the second cannot be opened.
    [open_files] closes the first again and returns [false], and the polling
    loop is left at once, nothing followed.  Then the final [close_files]
    calls [fclose] on the null streams, which is undefined; and [main] has
    no return other than [EXIT_SUCCESS]: no exit code other than 0 is
    produced. *)
Theorem open_failure_exit_code :
  open_files fs_ab (files params_missing)
    (<[0%nat := set_fp (init_file params_missing) (Some {| path := "log"; offset := 0 |})]>
       (f_array (init_state params_missing)))
  = Some (f_array (init_state params_missing), false) ∧
  follow params_missing [round_missing] (init_state params_missing)
  = Ok (init_state params_missing, true) ∧
  close_files (f_array (init_state params_missing)) 2 = None ∧
  main params_missing [round_missing] = Undefined ∧
  (∃ st, main params_ab [round_ab] = Ok (st, Some 0)).
Proof. repeat split; try reflexivity. eexists. reflexivity. Qed.

(** ** C8: file name headers *)

(** C8 (the code departs from it).  Two files are followed with [-n 1], not
    quiet.  In the first round the line of [A] is enqueued, which prints the
    header of [A], and the line of [B] is enqueued and, the filler of [B]
    being met, drained.  In the second round the filler of [A] is met and its
    buffer drained, without a header: on [stdout] the line of [A] follows
    the line of [B] under the header of [B], and the header of [A] stands
    before the header of [B] with nothing of [A] below it. *)
Theorem header_missing_before_drain :
  follow params_two [round1; round2] (init_state params_two)
  = Ok (state_after_round2, true) ∧
  log state_after_round2
  = [Header 0 "A"; Enqueued 0 (text "a1" ++ [LF; NUL]);
     Header 1 "B"; Enqueued 1 (text "b1" ++ [LF; NUL]);
     Drained 1 [text "b1" ++ [LF]];
     Drained 0 [text "a1" ++ [LF]]] ∧
  stdout state_after_round2
  = [header_text "A"; header_text "B"; text "b1" ++ [LF]; text "a1" ++ [LF]].
Proof. repeat split; reflexivity. Qed.

(** What does hold of the headers: no header repeats the one before it. *)

Lemma headers_change_app (last : Z) (l l' : list event) :
  headers_change last (l ++ l') ↔
  headers_change last l ∧ headers_change (last_header last l) l'.
Proof.
  revert last. induction l as [|e l IH]; intros last; simpl; [tauto|].
  destruct e; rewrite ?IH; unfold last_header; simpl; tauto.
Qed.

Lemma last_header_app (last : Z) (l l' : list event) :
  last_header last (l ++ l') = last_header (last_header last l) l'.
Proof. unfold last_header. by rewrite foldl_app. Qed.

Lemma headers_ok_emit (p : mtail_params) i buf n pfn st st' pfn' buf' :
  emit_record p i buf n pfn st = Some (st', pfn', buf') →
  headers_ok st → headers_ok st'.
Proof.
  intros (c & _ & [(_ & -> & _)|(_ & fd & hdr & _ & Hhdr & Hcase)])%emit_record_inv
    [Hch Hlast]; [done|].
  assert (∃ e, (is_enqueue e = true ∨ ∃ b, e = Direct i b) ∧
               log st' = log st ++ hdr ++ [e]) as (e & He & Hlog).
  { destruct Hcase as [(_ & _ & -> & _)|(_ & r & _ & _ & ->)].
    - exists (Direct i buf). split; [right; by eexists|done].
    - exists (Enqueued i buf). split; [by left|done]. }
  assert (∀ a, last_header a [e] = a) as H1.
  { intros a. destruct He as [He|[b ->]]; [by destruct e|done]. }
  assert (∀ a, headers_change a [e]) as H2.
  { intros a. destruct He as [He|[b ->]]; [by destruct e|done]. }
  destruct Hhdr as [(-> & Hl' & _)|(name & _ & -> & Hl' & _ & _ & Hne)];
    unfold headers_ok; rewrite Hlog, Hl'.
  - change ([] ++ [e]) with [e].
    rewrite headers_change_app, last_header_app, H1.
    split; [split; [done|apply H2]|done].
  - rewrite (app_assoc _ [Header i name] [e]), !headers_change_app, !last_header_app, H1.
    split; [split; [split; [done|]|apply H2]|done].
    simpl. split; [|done]. rewrite <- Hlast. by apply not_eq_sym.
Qed.

Lemma headers_ok_check (p : mtail_params) i buf n st st' brk :
  check_end_marker p i buf n st = Some (st', brk) →
  headers_ok st → headers_ok st'.
Proof.
  intros (c & _ & [(_ & -> & _)|(_ & _ & fd & f & m & _ & _ & _ & Hl & Hcase)])
    %check_end_marker_inv [Hch Hlast]; [done|].
  unfold headers_ok. rewrite Hl.
  destruct Hcase as [(_ & -> & _)|(_ & r & texts & _ & -> & _)]; [done|].
  rewrite headers_change_app, last_header_app. by repeat split.
Qed.

Lemma headers_alternate (p : mtail_params) (rounds : list round) (st : state)
    (ended : bool) :
  follow p rounds (init_state p) = Ok (st, ended) →
  headers_change (-1) (log st).
Proof.
  intros Hrun.
  assert (headers_ok (init_state p) → headers_ok st) as H.
  { revert Hrun. apply (follow_R p (λ st st', headers_ok st → headers_ok st')).
    - by intros st0.
    - intros st1 st2 st3 H12 H23 H. by apply H23, H12.
    - by intros st0 n fd f _ _.
    - apply headers_ok_emit.
    - apply headers_ok_check. }
  by apply H.
Qed.

(** ** Runs in two stretches *)


(** ** Scenario C of the specification *)

Example scenario_c_three_lines :
  (r ← enqueue_all (ring_buffer_init 3) [rec_of "a"; rec_of "b"; rec_of "c"];
   '(r', out) ← print_ring_buffer r;
   Some (out, line r'))
  = Some ([text "a" ++ [LF]; text "b" ++ [LF]; text "c" ++ [LF]], None).
Proof. vm_compute. reflexivity. Qed.

Example scenario_c_fourth_line :
  (r ← enqueue_all (ring_buffer_init 3) [rec_of "a"; rec_of "b"; rec_of "c"; rec_of "d"];
   '(r', out) ← print_ring_buffer r;
   Some (out, line r'))
  = Some ([text "b" ++ [LF]; text "c" ++ [LF]; text "d" ++ [LF]], None).
Proof. vm_compute. reflexivity. Qed.

(** * Further properties *)

(** ** find_end_index *)

Lemma find_end_loop_result (bs : list char) (marker : char) (limit i0 k : Z) :
  find_end_loop bs marker limit i0 = Some k →
  (k = -1 ∧
   ∃ n : nat, i0 + Z.of_nat n = Z.max i0 limit ∧ (n < length bs)%nat ∧
              ∀ j : nat, (j ≤ n)%nat → bs !! j ≠ Some marker) ∨
  (∃ n : nat, k = i0 + Z.of_nat n ∧ k ≤ Z.max i0 limit ∧ bs !! n = Some marker ∧
              ∀ j : nat, (j < n)%nat → bs !! j ≠ Some marker).
Proof.
  revert i0. induction bs as [|c bs IH]; intros i0 H; simpl in H; [done|].
  destruct (decide (c ≠ marker ∧ i0 < limit)) as [[Hc Hlt]|Hstop].
  - destruct (IH _ H) as [(-> & n & Hn & Hlen & Hno)|(n & -> & Hle & Hat & Hno)].
    + left. split; [done|]. exists (S n). split; [lia|]. split; [simpl; lia|].
      intros [|j] Hj; simpl; [congruence|]. apply Hno. lia.
    + right. exists (S n). split; [lia|]. split; [lia|]. split; [done|].
      intros [|j] Hj; simpl; [congruence|]. apply Hno. lia.
  - destruct (decide (c = marker)) as [->|Hc].
    + injection H as <-. right. exists 0%nat. split; [lia|]. split; [lia|].
      split; [done|]. intros j Hj. lia.
    + injection H as <-. left. split; [done|].
      assert (¬ i0 < limit) as Hge by tauto.
      exists 0%nat. split; [lia|]. split; [simpl; lia|].
      intros [|j] Hj; simpl; [congruence|lia].
Qed.

Lemma find_end_loop_None (bs : list char) (marker : char) (limit i0 : Z) :
  find_end_loop bs marker limit i0 = None ↔
  i0 + Z.of_nat (length bs) ≤ Z.max i0 limit ∧ marker ∉ bs.
Proof.
  revert i0. induction bs as [|c bs IH]; intros i0; simpl.
  - split; [intros _|done]. split; [lia|]. apply not_elem_of_nil.
  - destruct (decide (c ≠ marker ∧ i0 < limit)) as [[Hc Hlt]|Hstop].
    + rewrite IH, not_elem_of_cons. split.
      * intros [Hlen Hno]. split; [lia|]. split; [congruence|done].
      * intros [Hlen [_ Hno]]. split; [lia|done].
    + split.
      * by destruct (decide (c = marker)).
      * intros [Hlen [Hc Hno]%not_elem_of_cons]. exfalso. apply Hstop.
        split; [congruence|lia].
Qed.

(** X1.  Where the marker occurs among the first [limit] bytes of the buffer,
    [find_end_index] returns the offset of its first occurrence. *)
Theorem scanner_finds_first_marker (buf : list char) (marker : char) (limit k : Z) :
  0 ≤ k < limit →
  zlookup buf k = Some marker →
  (∀ j, 0 ≤ j < k → zlookup buf j ≠ Some marker) →
  find_end_index buf marker limit = Some k.
Proof. apply find_end_index_first. Qed.

Lemma scanner_finds_first_marker_witness :
  find_end_index (text "ab" ++ [NUL; NUL]) NUL 3 = Some 2.
Proof.
  apply scanner_finds_first_marker; [lia|reflexivity|].
  intros j Hj. assert (j = 0 ∨ j = 1) as [-> | ->] by lia; by vm_compute.
Defined.

(** X2.  Whatever [find_end_index] returns is either -1, and then the marker
    is at none of the indices 0 to [limit] (all of which lie in the buffer),
    or the index of the first marker of the buffer, which is at most [limit]
    (at most 0 for a negative [limit]). *)
Theorem scanner_result (buf : list char) (marker : char) (limit k : Z) :
  find_end_index buf marker limit = Some k →
  (k = -1 ∧ Z.max 0 limit < Z.of_nat (length buf) ∧
   ∀ j, 0 ≤ j ≤ Z.max 0 limit → zlookup buf j ≠ Some marker) ∨
  (0 ≤ k ≤ Z.max 0 limit ∧ zlookup buf k = Some marker ∧
   ∀ j, 0 ≤ j < k → zlookup buf j ≠ Some marker).
Proof.
  intros [(-> & n & Hn & Hlen & Hno)|(n & -> & Hle & Hat & Hno)]%find_end_loop_result.
  - left. split; [done|]. split; [lia|]. intros j Hj.
    replace j with (Z.of_nat (Z.to_nat j)) by lia. rewrite zlookup_of_nat.
    apply Hno. lia.
  - right. split; [lia|]. split; [by rewrite Z.add_0_l, zlookup_of_nat|].
    intros j Hj. replace j with (Z.of_nat (Z.to_nat j)) by lia.
    rewrite zlookup_of_nat. apply Hno. lia.
Qed.

Lemma scanner_result_witness :
  (-1 = -1 ∧ Z.max 0 1 < Z.of_nat (length (text "ab" ++ [NUL])) ∧
   ∀ j, 0 ≤ j ≤ Z.max 0 1 → zlookup (text "ab" ++ [NUL]) j ≠ Some NUL) ∨
  (0 ≤ -1 ≤ Z.max 0 1 ∧ zlookup (text "ab" ++ [NUL]) (-1) = Some NUL ∧
   ∀ j, 0 ≤ j < -1 → zlookup (text "ab" ++ [NUL]) j ≠ Some NUL).
Proof. apply (scanner_result (text "ab" ++ [NUL]) NUL 1 (-1)). reflexivity. Defined.

(** X3.  [find_end_index] reads past the end of the buffer exactly if the
    buffer holds no marker and is not longer than [limit] bytes (for a
    negative [limit]: is empty). *)
Theorem scanner_overrun_iff (buf : list char) (marker : char) (limit : Z) :
  find_end_index buf marker limit = None ↔
  Z.of_nat (length buf) ≤ Z.max 0 limit ∧ marker ∉ buf.
Proof. unfold find_end_index. by rewrite find_end_loop_None. Qed.

(** ** enqueue and print_ring_buffer *)

Lemma strncpy_length (src : list char) (n : nat) (copied : list char) :
  strncpy src n = Some copied → length copied = n.
Proof.
  revert src copied. induction n as [|n IH]; intros src copied H; simpl in H.
  - by injection H as <-.
  - destruct src as [|c src]; [done|].
    destruct (decide (c = NUL)).
    + injection H as <-. simpl. by rewrite length_replicate.
    + destruct (strncpy src n) as [t|] eqn:Ht; [|done].
      injection H as <-. simpl. by rewrite (IH _ _ Ht).
Qed.

Lemma strncpy_is_Some (src : list char) (n k : nat) :
  src !! k = Some NUL → (k < n)%nat → is_Some (strncpy src n).
Proof.
  revert src k. induction n as [|n IH]; intros src k Hk Hlt; [lia|].
  destruct src as [|c src]; [done|]. simpl.
  destruct (decide (c = NUL)); [by eexists|].
  destruct k as [|k]; simpl in Hk; [congruence|].
  destruct (IH src k Hk) as [t ->]; [lia|]. by eexists.
Qed.

Lemma next_index_range (r : ring_buffer) (q : list (list char)) :
  represents r q → 1 ≤ capacity r → 0 ≤ next_index r < capacity r.
Proof.
  intros (lines & _ & _ & Hsize & Hcap & Hlatest & _) H1. unfold next_index.
  destruct (decide (size r = 0)); split_decide; lia.
Qed.

Lemma enqueue_None_iff (r : ring_buffer) (q : list (list char))
    (lines : list (option block)) (ln : list char) (len : Z) :
  represents r q →
  1 ≤ capacity r →
  line r = Some lines →
  1 ≤ len ≤ Z.of_nat (length ln) →
  enqueue r ln len = None ↔
  ∃ old, zlookup lines (next_index r) = Some (Some old) ∧
         len ≤ sizeof_char_ptr ∧ alloc old < len.
Proof.
  intros Hr Hcap Hline Hlen.
  pose proof (next_index_range r q Hr Hcap) as Hidx.
  destruct Hr as (lines' & Hline' & Hlines & _).
  rewrite Hline in Hline'. injection Hline' as <-.
  unfold enqueue. rewrite Hline. fold (next_index r). simpl.
  destruct (zlookup lines (next_index r)) as [slot|] eqn:Hslot; simpl.
  2: { exfalso. unfold zlookup in Hslot. rewrite decide_True in Hslot by lia.
       apply lookup_ge_None in Hslot. lia. }
  unfold zstore.
  destruct (decide (0 ≤ len - 1 < Z.of_nat (length ln))) as [_|?]; [|lia]. simpl.
  assert (<[Z.to_nat (len - 1) := NUL]> ln !! Z.to_nat (len - 1) = Some NUL) as Hnul
    by (apply list_lookup_insert_eq; lia).
  destruct (strncpy_is_Some _ (Z.to_nat len) _ Hnul) as [copied Hcopy]; [lia|].
  rewrite Hcopy. simpl.
  pose proof (strncpy_length _ _ _ Hcopy) as Hcl.
  assert (∀ b : block, write_block b copied = None ↔ alloc b < len) as Hw.
  { intros b. unfold write_block.
    destruct (decide (Z.of_nat (length copied) ≤ alloc b)); split; try done; lia. }
  assert (∀ b : block,
            write_block b copied ≫= (λ blk', Some
              ({| latest_index := next_index r; capacity := capacity r;
                  size := if decide (size r < capacity r) then size r + 1 else size r;
                  line := Some (<[Z.to_nat (next_index r) := Some blk']> lines) |},
               <[Z.to_nat (len - 1) := NUL]> ln)) = None ↔ alloc b < len) as Hw'.
  { intros b. rewrite <- Hw. by destruct (write_block b copied). }
  rewrite Hw'. destruct slot as [old|].
  - destruct (decide (sizeof_char_ptr < len)); simpl.
    + split; [lia|]. intros (old' & _ & ? & _). lia.
    + split.
      * intros ?. exists old. split; [done|]. lia.
      * by intros (old' & [= <-] & _ & ?).
  - simpl. split; [lia|]. by intros (old' & [=] & _).
Qed.

(** X4.  On a live buffer of capacity at least 1, and for a line of at least
    [len >= 1] bytes, [enqueue] writes outside a block exactly if the slot it
    is about to write holds a block, [len] is at most the size of a pointer
    (so that the block is kept), and the block is smaller than [len]. *)
Theorem enqueue_overrun_iff (r : ring_buffer) (q : list (list char))
    (lines : list (option block)) (ln : list char) (len : Z) :
  represents r q →
  1 ≤ capacity r →
  line r = Some lines →
  1 ≤ len ≤ Z.of_nat (length ln) →
  enqueue r ln len = None ↔
  ∃ old, zlookup lines (next_index r) = Some (Some old) ∧
         len ≤ sizeof_char_ptr ∧ alloc old < len.
Proof. apply enqueue_None_iff. Qed.

Lemma enqueue_overrun_iff_witness :
  enqueue {| latest_index := 0; capacity := 1; size := 1;
             line := Some [Some {| alloc := 2; bytes := [LF; NUL] |}] |}
          rec_a.1 rec_a.2 = None ↔
  ∃ old, zlookup [Some {| alloc := 2; bytes := [LF; NUL] |}]
           (next_index {| latest_index := 0; capacity := 1; size := 1;
                          line := Some [Some {| alloc := 2; bytes := [LF; NUL] |}] |})
         = Some (Some old) ∧
         rec_a.2 ≤ sizeof_char_ptr ∧ alloc old < rec_a.2.
Proof.
  refine (enqueue_overrun_iff _ [[LF]] _ _ _ _ _ _ _);
    [|simpl; lia|reflexivity|simpl; lia].
  eexists. split; [reflexivity|]. simpl. repeat split; try lia.
  intros [|t] text0 Ht; [|done]. injection Ht as <-. reflexivity.
Defined.

(** X5.  If the calls of [enqueue] made on a fresh buffer of capacity
    [cap >= 1] all stay within their blocks, [print_ring_buffer] prints the
    strings of the last [cap] calls (of all calls, if there were fewer), the
    oldest first, each as the line it was given cut at its first NUL, and
    leaves the buffer null. *)
Theorem buffer_order_when_defined (cap : Z) (recs : list (list char * Z))
    (r : ring_buffer) :
  1 ≤ cap →
  enqueue_all (ring_buffer_init cap) recs = Some r →
  ∃ r', print_ring_buffer r =
          Some (r', drop (length recs - Z.to_nat cap) (stored_text <$> recs)) ∧
        line r' = None.
Proof. apply drain_after_enqueues. Qed.

Lemma buffer_order_when_defined_witness :
  ∃ r', print_ring_buffer buffer_abcd =
          Some (r', drop (4 - Z.to_nat 3)
                      (stored_text <$> [rec_of "a"; rec_of "b"; rec_of "c"; rec_of "d"])) ∧
        line r' = None.
Proof.
  apply (buffer_order_when_defined 3 [rec_of "a"; rec_of "b"; rec_of "c"; rec_of "d"]);
    [lia|vm_compute; reflexivity].
Defined.

Lemma enqueue_all_is_Some (recs : list (list char * Z)) (r : ring_buffer)
    (q : list (list char)) :
  represents r q →
  1 ≤ capacity r →
  Forall (λ rec, sizeof_char_ptr < rec.2 ≤ Z.of_nat (length rec.1)) recs →
  is_Some (enqueue_all r recs).
Proof.
  revert r q. induction recs as [|[ln len] recs IH]; intros r q Hr Hcap Hall; simpl.
  - by eexists.
  - inversion_clear Hall as [|? ? Hlen Hall']. simpl in Hlen.
    destruct (enqueue r ln len) as [[r1 ln1]|] eqn:Henq.
    + simpl. destruct (enqueue_represents _ _ _ _ _ _ Hr Henq) as (Hc & _ & t & _ & Hr1).
      apply (IH r1 _ Hr1); [by rewrite Hc|done].
    + exfalso. destruct Hr as (lines & Hline & Hrest).
      apply (enqueue_None_iff r q lines) in Henq as (old & _ & ? & _);
        [unfold sizeof_char_ptr in *; lia|by exists lines|done|done|].
      unfold sizeof_char_ptr in *. lia.
Qed.

(** X6.  Lines of more than 8 bytes ([len] greater than the size of a
    pointer) are always stored in a block of their own size: any sequence
    of such calls on a fresh buffer of capacity [cap >= 1] is defined, and the
    drain prints the strings of the last [cap] calls, the oldest first. *)
Theorem buffer_order_long_lines (cap : Z) (recs : list (list char * Z)) :
  1 ≤ cap →
  Forall (λ rec, sizeof_char_ptr < rec.2 ≤ Z.of_nat (length rec.1)) recs →
  ∃ r r',
    enqueue_all (ring_buffer_init cap) recs = Some r ∧
    print_ring_buffer r =
      Some (r', drop (length recs - Z.to_nat cap) (stored_text <$> recs)) ∧
    line r' = None.
Proof.
  intros Hcap Hall.
  destruct (enqueue_all_is_Some recs (ring_buffer_init cap) []) as [r Hr];
    [apply represents_init; lia|done|done|].
  destruct (drain_after_enqueues cap recs r Hcap Hr) as (r' & Hp & Hl).
  by exists r, r'.
Qed.

Lemma buffer_order_long_lines_witness :
  ∃ r r',
    enqueue_all (ring_buffer_init 1) [rec_of "first line"; rec_of "second line"] = Some r ∧
    print_ring_buffer r =
      Some (r', drop (2 - Z.to_nat 1)
                  (stored_text <$> [rec_of "first line"; rec_of "second line"])) ∧
    line r' = None.
Proof.
  apply (buffer_order_long_lines 1 [rec_of "first line"; rec_of "second line"]); [lia|].
  repeat constructor; vm_compute; congruence.
Defined.

Lemma enqueue_all_app (r : ring_buffer) (recs : list (list char * Z))
    (rec : list char * Z) :
  enqueue_all r (recs ++ [rec]) =
  r1 ← enqueue_all r recs; '(r2, _) ← enqueue r1 rec.1 rec.2; Some r2.
Proof.
  revert r. induction recs as [|x recs IH]; intros r; simpl.
  - by destruct (enqueue r rec.1 rec.2) as [[? ?]|].
  - destruct (enqueue r x.1 x.2) as [[r1 ?]|]; [|done]. simpl. apply IH.
Qed.

Lemma enqueue_fields (r r' : ring_buffer) (ln ln' : list char) (len : Z) :
  enqueue r ln len = Some (r', ln') →
  latest_index r' = next_index r ∧ capacity r' = capacity r ∧
  size r' = (if decide (size r < capacity r) then size r + 1 else size r).
Proof.
  unfold enqueue. intros H.
  destruct (line r) as [lines|]; [|done]. simpl in H.
  destruct (zlookup lines _) as [slot|]; [|done]. simpl in H.
  destruct (zstore ln (len - 1) NUL) as [ln1|]; [|done]. simpl in H.
  destruct (strncpy ln1 (Z.to_nat len)) as [copied|]; [|done]. simpl in H.
  destruct (write_block _ copied) as [blk'|]; [|done]. simpl in H.
  by injection H as <- <-.
Qed.

(** X7.  After [n >= 1] calls of [enqueue] on a fresh buffer of capacity
    [cap >= 1], the capacity is unchanged, the buffer holds [min n cap] lines
    and [latest_index] is [(n - 1) mod cap]: the slots are written
    cyclically, starting with slot 0. *)
Theorem enqueue_all_fields (cap : Z) (recs : list (list char * Z)) (r : ring_buffer) :
  1 ≤ cap →
  recs ≠ [] →
  enqueue_all (ring_buffer_init cap) recs = Some r →
  capacity r = cap ∧
  size r = Z.min (Z.of_nat (length recs)) cap ∧
  latest_index r = (Z.of_nat (length recs) - 1) `mod` cap.
Proof.
  intros Hcap. revert r.
  induction recs as [|rec recs IH] using rev_ind; intros r Hne H; [done|].
  rewrite enqueue_all_app in H.
  destruct (enqueue_all (ring_buffer_init cap) recs) as [r1|] eqn:H1; [|done].
  simpl in H. destruct (enqueue r1 rec.1 rec.2) as [[r2 ln']|] eqn:H2; [|done].
  injection H as <-.
  destruct (enqueue_fields _ _ _ _ _ H2) as (Hl & Hc & Hs).
  rewrite length_app. simpl. unfold next_index in Hl.
  destruct recs as [|x recs'] using rev_ind.
  - injection H1 as <-. simpl in *. rewrite Hl, Hc, Hs.
    rewrite Z.mod_0_l by lia. split_decide; lia.
  - clear IHrecs'. destruct (IH r1) as (Hc1 & Hs1 & Hl1); [by destruct recs'|done|].
    rewrite Hl, Hc, Hs, Hc1, Hs1, Hl1. rewrite length_app in *. simpl in *.
    split; [done|]. split; [split_decide; lia|].
    set (n := Z.of_nat (length recs' + 1)).
    replace (Z.of_nat (length recs' + 1 + 1) - 1) with ((n - 1) + 1) by lia.
    pose proof (Z.mod_pos_bound (n - 1) cap ltac:(lia)) as Hb.
    rewrite <- (Zplus_mod_idemp_l (n - 1) 1 cap).
    generalize dependent ((n - 1) `mod` cap). intros m Hb.
    destruct (decide (cap ≤ m + 1)).
    + replace (m + 1) with cap by lia. by rewrite Z_mod_same_full.
    + by rewrite Z.mod_small by lia.
Qed.

Lemma enqueue_all_fields_witness :
  capacity buffer_abcd = 3 ∧
  size buffer_abcd = Z.min (Z.of_nat 4) 3 ∧
  latest_index buffer_abcd = (Z.of_nat 4 - 1) `mod` 3.
Proof.
  apply (enqueue_all_fields 3 [rec_of "a"; rec_of "b"; rec_of "c"; rec_of "d"]);
    [lia|done|vm_compute; reflexivity].
Defined.

(** ** close_files and open_files *)

Lemma close_files_open (n : nat) (arr : list file_data) :
  (n ≤ length arr)%nat →
  all_open (take n arr) →
  close_files arr n = Some ((closed <$> take n arr) ++ drop n arr).
Proof.
  revert arr. induction n as [|n IH]; intros arr Hn Hopen; simpl.
  - by rewrite drop_0.
  - destruct (arr !! n) as [fd|] eqn:Hfd; [|apply lookup_ge_None in Hfd; lia].
    rewrite (take_S_r _ _ _ Hfd) in *.
    apply Forall_app in Hopen as [Hopen Hfdo]. apply Forall_singleton in Hfdo as [f Hf].
    simpl. rewrite Hf. simpl.
    rewrite IH; [|rewrite length_insert; lia|by rewrite take_insert_ge by lia].
    rewrite take_insert_ge by lia. f_equal.
    rewrite fmap_app, <- app_assoc. f_equal. simpl.
    rewrite drop_insert_ge by lia. rewrite Nat.sub_diag.
    by rewrite (drop_S _ _ _ Hfd).
Qed.

Lemma close_files_null (n : nat) (arr : list file_data) :
  Exists (λ fd, fp fd = None) (take n arr) → close_files arr n = None.
Proof.
  revert arr. induction n as [|n IH]; intros arr Hex; simpl.
  - by apply Exists_nil in Hex.
  - destruct (arr !! n) as [fd|] eqn:Hfd; [|done]. simpl.
    rewrite (take_S_r _ _ _ Hfd) in Hex.
    destruct (fp fd) as [f|] eqn:Hf; [|done]. simpl.
    apply IH. rewrite take_insert_ge by lia.
    apply Exists_app in Hex as [Hex|Hex]; [done|].
    apply Exists_cons in Hex as [?|Hex]; [congruence|by apply Exists_nil in Hex].
Qed.

(** X8.  [close_files (arr, n)], for [n] within the array, is defined if the
    first [n] streams are all open, and then sets exactly these to null and
    leaves the other entries as they are; if one of the first [n] streams
    is null already, it calls [fclose] on a null stream. *)
Theorem close_files_result (n : nat) (arr : list file_data) :
  (n ≤ length arr)%nat →
  (all_open (take n arr) →
   close_files arr n = Some ((closed <$> take n arr) ++ drop n arr)) ∧
  (Exists (λ fd, fp fd = None) (take n arr) → close_files arr n = None).
Proof.
  intros Hn. split; [by apply close_files_open|apply close_files_null].
Qed.

Lemma close_files_result_witness :
  (all_open (take 1 (f_array state_after_round1)) →
   close_files (f_array state_after_round1) 1
   = Some ((closed <$> take 1 (f_array state_after_round1)) ++
           drop 1 (f_array state_after_round1))) ∧
  (Exists (λ fd, fp fd = None) (take 1 (f_array state_after_round1)) →
   close_files (f_array state_after_round1) 1 = None).
Proof. apply close_files_result. simpl. lia. Defined.

Lemma closed_id (fd : file_data) : fp fd = None → closed fd = fd.
Proof. destruct fd. simpl. by intros ->. Qed.

Lemma open_files_from_all (fs : filesystem) (names : list string)
    (pre post : list file_data) :
  all_closed post →
  length post = length names →
  Forall (λ name, is_Some (fs name)) names →
  open_files_from fs names (length pre) (pre ++ post)
  = Some (pre ++ zip_with opened_on post names, true).
Proof.
  revert pre post. induction names as [|name names IH];
    intros pre [|fd post] Hclosed Hlen Hall; simpl in *; try done.
  inversion_clear Hclosed as [|? ? Hfd Hpost].
  inversion_clear Hall as [|? ? [c Hname] Hnames].
  rewrite lookup_app_r, Nat.sub_diag by lia. simpl. rewrite Hfd.
  unfold fopen. rewrite Hname.
  replace (<[length pre := set_fp fd (Some {| path := name; offset := 0 |})]> (pre ++ fd :: post))
    with ((pre ++ [opened_on fd name]) ++ post).
  2: { rewrite insert_app_r_alt, Nat.sub_diag by lia. simpl. by rewrite <- app_assoc. }
  replace (S (length pre)) with (length (pre ++ [opened_on fd name]))
    by (rewrite length_app; simpl; lia).
  rewrite IH by (done || lia). by rewrite <- app_assoc.
Qed.

Lemma open_files_from_none (fs : filesystem) (names : list string)
    (pre post : list file_data) :
  all_open pre →
  all_closed post →
  length post = length names →
  Exists (λ name, fs name = None) names →
  open_files_from fs names (length pre) (pre ++ post)
  = Some ((closed <$> pre) ++ post, false).
Proof.
  revert pre post. induction names as [|name names IH];
    intros pre [|fd post] Hopen Hclosed Hlen Hex; simpl in *; try done.
  { by apply Exists_nil in Hex. }
  inversion_clear Hclosed as [|? ? Hfd Hpost].
  rewrite lookup_app_r, Nat.sub_diag by lia. simpl. rewrite Hfd.
  unfold fopen. destruct (fs name) as [c|] eqn:Hname.
  - apply Exists_cons in Hex as [?|Hex]; [congruence|].
    replace (<[length pre := set_fp fd (Some {| path := name; offset := 0 |})]> (pre ++ fd :: post))
      with ((pre ++ [opened_on fd name]) ++ post).
    2: { rewrite insert_app_r_alt, Nat.sub_diag by lia. simpl. by rewrite <- app_assoc. }
    replace (S (length pre)) with (length (pre ++ [opened_on fd name]))
      by (rewrite length_app; simpl; lia).
    rewrite IH; try done.
    + rewrite fmap_app, <- app_assoc. simpl. do 3 f_equal.
      destruct fd. simpl in *. by subst.
    + apply Forall_app. split; [done|]. apply Forall_singleton. by eexists.
    + lia.
  - rewrite close_files_open.
    + rewrite take_app_length, drop_app_length. done.
    + rewrite length_app. lia.
    + by rewrite take_app_length.
Qed.

Lemma open_files_all (fs : filesystem) (names : list string) (arr : list file_data) :
  all_closed arr →
  length arr = length names →
  Forall (λ name, is_Some (fs name)) names →
  open_files fs names arr = Some (zip_with opened_on arr names, true).
Proof. intros Hclosed Hlen H. exact (open_files_from_all fs names [] arr Hclosed Hlen H). Qed.

Lemma open_files_none (fs : filesystem) (names : list string) (arr : list file_data) :
  all_closed arr →
  length arr = length names →
  Exists (λ name, fs name = None) names →
  open_files fs names arr = Some (arr, false).
Proof.
  intros Hclosed Hlen H.
  exact (open_files_from_none fs names [] arr (Forall_nil_2 _) Hclosed Hlen H).
Qed.

(** X9.  Called on files that are all closed (as in the first round),
    [open_files] is all or nothing: if every name can be opened, every file
    gets a stream on its name with the cursor at 0 and the result is [true];
    if some name cannot be opened, the result is [false] and every stream
    is null again, those opened before the failing one having been closed. *)
Theorem open_files_all_or_nothing (fs : filesystem) (names : list string)
    (arr : list file_data) :
  all_closed arr →
  length arr = length names →
  (Forall (λ name, is_Some (fs name)) names →
   open_files fs names arr = Some (zip_with opened_on arr names, true)) ∧
  (Exists (λ name, fs name = None) names →
   open_files fs names arr = Some (arr, false)).
Proof.
  intros Hclosed Hlen. split; [by apply open_files_all|by apply open_files_none].
Qed.

Lemma open_files_all_or_nothing_witness :
  (Forall (λ name, is_Some (fs_ab name)) (files params_missing) →
   open_files fs_ab (files params_missing) (f_array (init_state params_missing))
   = Some (zip_with opened_on (f_array (init_state params_missing))
             (files params_missing), true)) ∧
  (Exists (λ name, fs_ab name = None) (files params_missing) →
   open_files fs_ab (files params_missing) (f_array (init_state params_missing))
   = Some (f_array (init_state params_missing), false)).
Proof.
  apply open_files_all_or_nothing; [|reflexivity].
  repeat constructor.
Defined.

Lemma open_files_from_open (fs : filesystem) (names : list string) (i : nat)
    (arr : list file_data) :
  all_open arr →
  (i + length names ≤ length arr)%nat →
  open_files_from fs names i arr = Some (arr, true).
Proof.
  revert i. induction names as [|name names IH]; intros i Hopen Hlen; simpl in *; [done|].
  destruct (arr !! i) as [fd|] eqn:Hfd; [|apply lookup_ge_None in Hfd; lia]. simpl.
  destruct (Forall_lookup_1 _ _ _ _ Hopen Hfd) as [f ->].
  apply IH; [done|lia].
Qed.

Lemma open_files_open (fs : filesystem) (names : list string) (arr : list file_data) :
  all_open arr →
  length arr = length names →
  open_files fs names arr = Some (arr, true).
Proof. intros Hopen Hlen. apply open_files_from_open; [done|simpl; lia]. Qed.

(** X10.  Files that are open are not opened again: on an array whose streams
    are all open, [open_files] returns [true] and leaves every stream and
    its cursor as it is, whatever the file system holds by then (a file that
    was removed or replaced under its name is not noticed). *)
Theorem open_files_keeps_open (fs : filesystem) (names : list string)
    (arr : list file_data) :
  all_open arr →
  length arr = length names →
  open_files fs names arr = Some (arr, true).
Proof. apply open_files_open. Qed.

Lemma open_files_keeps_open_witness :
  open_files (λ _, None) (files params_two) (f_array state_after_round1)
  = Some (f_array state_after_round1, true).
Proof.
  apply open_files_keeps_open; [|reflexivity].
  repeat constructor; by eexists.
Defined.

(** ** The polling loop: how it is left *)

Lemma all_open_insert (arr : list file_data) (n : nat) (fd : file_data) :
  all_open arr → is_Some (fp fd) → all_open (<[n := fd]> arr).
Proof. intros H Hfd. by apply Forall_insert. Qed.

Lemma emit_record_all_open (p : mtail_params) i buf n pfn st st' pfn' buf' :
  emit_record p i buf n pfn st = Some (st', pfn', buf') →
  all_open (f_array st) → all_open (f_array st').
Proof.
  intros (c & _ & [(_ & -> & _)|(_ & fd & hdr & Hfd & _ & Hcase)])%emit_record_inv Hall;
    [done|].
  destruct Hcase as [(_ & -> & _)|(_ & r & _ & -> & _)]; [done|].
  apply all_open_insert; [done|]. simpl.
  apply zlookup_Some in Hfd as [_ Hfd]. by apply (Forall_lookup_1 _ _ _ _ Hall Hfd).
Qed.

Lemma check_end_marker_all_open (p : mtail_params) i buf n st st' brk :
  check_end_marker p i buf n st = Some (st', brk) →
  all_open (f_array st) → all_open (f_array st').
Proof.
  intros (c & _ & [(_ & -> & _)|(_ & _ & fd & f & m & _ & _ & _ & _ & Hcase)])
    %check_end_marker_inv Hall; [done|].
  destruct Hcase as [(_ & _ & ->)|(_ & r & texts & _ & _ & ->)];
    (apply all_open_insert; [done|by eexists]).
Qed.

Lemma read_records_all_open (p : mtail_params) (fs : filesystem) (i : Z) (fuel : nat)
    (pfn : bool) (st st' : state) :
  read_records fuel p fs i pfn st = Ok st' →
  all_open (f_array st) → all_open (f_array st').
Proof.
  revert pfn st. induction fuel as [|fuel IH]; intros pfn st H Hall; simpl in H; [done|].
  destruct (zlookup (f_array st) i) as [fd|] eqn:Hfd; [|done]. simpl in H.
  destruct (fp fd) as [f|] eqn:Hfp; [|done]. simpl in H.
  destruct (getdelim fs (f_delim fd) f) as [[[buf n] f']|] eqn:Hget;
    [|by injection H as <-].
  destruct (emit_record p i buf n pfn (set_file st i (set_fp fd (Some f'))))
    as [[[st1 pfn1] buf1]|] eqn:He; [|done]. simpl in H.
  destruct (check_end_marker p i buf1 n st1) as [[st2 brk]|] eqn:Hc; [|done].
  simpl in H.
  assert (all_open (f_array st2)) as H2.
  { eapply check_end_marker_all_open; [done|].
    eapply emit_record_all_open; [done|]. simpl.
    apply all_open_insert; [done|by eexists]. }
  destruct brk; [by injection H as <-|by eapply IH].
Qed.

Lemma poll_files_all_open (p : mtail_params) (fs : filesystem) (idx : list Z)
    (st st' : state) :
  poll_files p fs idx st = Ok st' →
  all_open (f_array st) → all_open (f_array st').
Proof.
  revert st. induction idx as [|i idx IH]; intros st H Hall; simpl in H.
  - by injection H as <-.
  - destruct (read_file p fs i st) as [st1| |] eqn:H1; try done. simpl in H.
    apply (IH st1 H). unfold read_file in H1.
    destruct (zlookup (f_array st) i) as [fd|]; [|done].
    cbn [mbind result_bind defined] in H1.
    destruct (fp fd) as [f|]; [|done].
    cbn [mbind result_bind defined] in H1.
    by eapply read_records_all_open.
Qed.

Lemma poll_files_length (p : mtail_params) (fs : filesystem) (idx : list Z)
    (st st' : state) :
  poll_files p fs idx st = Ok st' → length (f_array st') = length (f_array st).
Proof.
  intros H.
  by destruct (poll_files_R p (once p) (once_refl p) (once_trans p) (once_stream p)
                 (once_emit p) (once_check p) _ _ _ _ H).
Qed.

Lemma follow_cons (p : mtail_params) (r : round) (rounds : list round) (st : state) :
  follow p (r :: rounds) st =
  '(arr, opened) ← defined (open_files (disk r) (files p) (f_array st));
  if (opened : bool) then
    st ← poll_files p (disk r) (seqZ 0 (num_files p)) (set_files st arr);
    if stop_conditions_met r then Ok (st, true) else follow p rounds st
  else Ok (set_files st arr, true).
Proof. done. Qed.

(** Once all files are open, the loop is left through the stop condition
    only. *)
Lemma follow_open (p : mtail_params) (rounds : list round) (st st' : state)
    (ended : bool) :
  all_open (f_array st) →
  length (f_array st) = length (files p) →
  follow p rounds st = Ok (st', ended) →
  all_open (f_array st') ∧
  (ended = true → Exists (λ r, stop_conditions_met r = true) rounds).
Proof.
  revert st. induction rounds as [|r rounds IH]; intros st Hopen Hlen H.
  - simpl in H. by injection H as <- <-.
  - rewrite follow_cons, (open_files_open _ _ _ Hopen Hlen) in H.
    cbn [mbind result_bind defined] in H.
    destruct (poll_files p (disk r) (seqZ 0 (num_files p)) (set_files st (f_array st)))
      as [st1| |] eqn:Hp; try done. cbn [mbind result_bind] in H.
    pose proof (poll_files_all_open _ _ _ _ _ Hp Hopen) as Hopen1.
    pose proof (poll_files_length _ _ _ _ _ Hp) as Hlen1. simpl in Hlen1.
    destruct (stop_conditions_met r) eqn:Hstop.
    + injection H as <- <-. split; [done|]. intros _. by apply Exists_cons_hd.
    + destruct (IH st1) as [Ho He]; [done|congruence|done|].
      split; [done|]. intros ->. by apply Exists_cons_tl, He.
Qed.

Lemma openable_dec (fs : filesystem) (names : list string) :
  Forall (λ name, is_Some (fs name)) names ∨ Exists (λ name, fs name = None) names.
Proof.
  induction names as [|name names [IH|IH]].
  - left. constructor.
  - destruct (fs name) eqn:Hname.
    + left. constructor; [by eexists|done].
    + right. by apply Exists_cons_hd.
  - right. by apply Exists_cons_tl.
Qed.

Lemma init_state_closed (p : mtail_params) :
  all_closed (f_array (init_state p)) ∧
  length (f_array (init_state p)) = length (files p).
Proof. split; [by apply Forall_replicate|apply length_replicate]. Qed.

Lemma zip_with_opened_on (arr : list file_data) (names : list string) :
  all_open (zip_with opened_on arr names).
Proof.
  revert names. induction arr as [|fd arr IH]; intros [|name names]; simpl;
    try constructor; [by eexists|apply IH].
Qed.

Lemma follow_left_by_stop (p : mtail_params) (r : round) (rounds : list round)
    (st : state) :
  Forall (λ name, is_Some (disk r name)) (files p) →
  follow p (r :: rounds) (init_state p) = Ok (st, true) →
  all_open (f_array st) ∧
  Exists (λ r', stop_conditions_met r' = true) (r :: rounds).
Proof.
  intros Hall H. destruct (init_state_closed p) as [Hclosed Hlen].
  pose proof (zip_with_opened_on (f_array (init_state p)) (files p)) as Hopen.
  assert (length (zip_with opened_on (f_array (init_state p)) (files p))
          = length (files p)) as Hlen'.
  { rewrite length_zip_with. lia. }
  assert (follow p (r :: rounds)
            (set_files (init_state p)
               (zip_with opened_on (f_array (init_state p)) (files p)))
          = Ok (st, true)) as H'.
  { rewrite follow_cons in *. rewrite (open_files_all _ _ _ Hclosed Hlen Hall) in H.
    simpl f_array. by rewrite (open_files_open _ _ _ Hopen Hlen'). }
  apply follow_open in H' as [Ho He]; [|done..].
  split; [done|by apply He].
Qed.

(** X11.  If every file can be opened in the first round, the polling loop is
    left through the stop condition only: the files stay open from then on,
    [open_files] does not fail in any later round, whatever happens to the
    files, and when the loop is left, one of the rounds run has had
    [stop_conditions_met] hold. *)
Theorem loop_left_by_stop_only (p : mtail_params) (r : round) (rounds : list round)
    (st : state) :
  Forall (λ name, is_Some (disk r name)) (files p) →
  follow p (r :: rounds) (init_state p) = Ok (st, true) →
  all_open (f_array st) ∧
  Exists (λ r', stop_conditions_met r' = true) (r :: rounds).
Proof. apply follow_left_by_stop. Qed.

Lemma loop_left_by_stop_only_witness :
  all_open (f_array state_after_round2) ∧
  Exists (λ r', stop_conditions_met r' = true) [round1; round2].
Proof.
  apply (loop_left_by_stop_only params_two round1 [round2] state_after_round2).
  - repeat constructor; by eexists.
  - vm_compute. reflexivity.
Defined.

Lemma main_open_failure (p : mtail_params) (r : round) (rounds : list round) :
  Exists (λ name, disk r name = None) (files p) →
  main p (r :: rounds) = Undefined.
Proof.
  intros Hex. destruct (init_state_closed p) as [Hclosed Hlen].
  unfold main, print_file_content.
  rewrite follow_cons, (open_files_none _ _ _ Hclosed Hlen Hex).
  cbn [mbind result_bind defined].
  rewrite close_files_null; [done|].
  simpl. rewrite take_replicate, Nat.min_id.
  destruct (files p) as [|name names]; [by apply Exists_nil in Hex|].
  simpl. by apply Exists_cons_hd.
Qed.

(** X12.  If one of the files cannot be opened in the first round, [main] does
    not return at all: the polling loop is left with every stream null, and
    the final [close_files] calls [fclose] on a null stream. *)
Theorem open_failure_undefined (p : mtail_params) (r : round) (rounds : list round) :
  Exists (λ name, disk r name = None) (files p) →
  main p (r :: rounds) = Undefined.
Proof. apply main_open_failure. Qed.

Lemma open_failure_undefined_witness :
  main params_missing [round_missing] = Undefined.
Proof.
  apply open_failure_undefined. apply Exists_cons_tl, Exists_cons_hd. reflexivity.
Defined.

(** X13.  When [main] returns, its value is 0, every stream has been closed,
    and the polling loop was left because [stop_conditions_met] held in one
    of the rounds. *)
Theorem main_returns (p : mtail_params) (rounds : list round) (st : state) (code : Z) :
  main p rounds = Ok (st, Some code) →
  code = 0 ∧
  all_closed (f_array st) ∧
  Exists (λ r, stop_conditions_met r = true) rounds.
Proof.
  intros H. split; [by apply (main_exit_code _ _ _ _ H)|].
  destruct rounds as [|r rounds]; [done|].
  destruct (openable_dec (disk r) (files p)) as [Hall|Hex];
    [|by rewrite (main_open_failure p r rounds Hex) in H].
  unfold main, print_file_content in H.
  destruct (follow p (r :: rounds) (init_state p)) as [[st0 ended]| |] eqn:Hrun;
    [|done..].
  cbn [mbind result_bind] in H. destruct ended; [|done].
  destruct (follow_left_by_stop p r rounds st0 Hall Hrun) as [Hopen Hstop].
  split; [|done].
  pose proof (once_follow _ _ _ _ _ Hrun) as [Hlen _].
  destruct (init_state_closed p) as [_ Hlen0].
  rewrite close_files_open in H; [|lia|by rewrite take_ge by lia].
  cbn [mbind result_bind defined] in H. injection H as <- _. simpl.
  rewrite take_ge, drop_ge by lia. rewrite app_nil_r.
  apply Forall_fmap. by apply Forall_true.
Qed.

Lemma main_returns_witness :
  0 = 0 ∧
  all_closed (f_array (set_files state_after_round2
                         (closed <$> f_array state_after_round2))) ∧
  Exists (λ r, stop_conditions_met r = true) [round1; round2].
Proof.
  apply (main_returns params_two [round1; round2]). vm_compute. reflexivity.
Defined.
(** ** The read loops end *)

(** X14.  No run exhausts the bound of a read loop: a pass over a file makes
    at most one iteration more than the file has bytes, since every
    iteration that stays in the loop moves the cursor forward.  So the
    program either yields a state or runs into undefined behaviour. *)
Theorem read_loops_end (p : mtail_params) (rounds : list round) :
  (∃ out, main p rounds = Ok out) ∨ main p rounds = Undefined.
Proof.
  pose proof (main_total p rounds) as H.
  destruct (main p rounds) as [out| |]; [left; by exists out|by right|done].
Qed.

(** ** Headers and the records under them *)

Lemma headed_app (need : bool) (last : Z) (l l' : list event) :
  headed need last (l ++ l') ↔
  headed need last l ∧ headed need (last_header last l) l'.
Proof.
  revert last. induction l as [|e l IH]; intros last; simpl; [tauto|].
  destruct e; rewrite ?IH; unfold last_header; simpl; tauto.
Qed.

Lemma emit_record_headed (p : mtail_params) i buf n pfn st st' pfn' buf' :
  emit_record p i buf n pfn st = Some (st', pfn', buf') →
  pass_ok p i pfn st → pass_ok p i pfn' st'.
Proof.
  intros (c & _ & [(_ & -> & -> & _)|(_ & fd & hdr & _ & Hhdr & Hcase)])%emit_record_inv
    (Hh & Hlast & Hpfn); [done|].
  assert (∃ e, (e = Enqueued i buf ∨ e = Direct i buf) ∧
               log st' = log st ++ hdr ++ [e]) as (e & He & Hlog).
  { destruct Hcase as [(_ & _ & -> & _)|(_ & r & _ & _ & ->)]; eauto. }
  assert (∀ a, last_header a [e] = a) as H1.
  { intros a. by destruct He as [-> | ->]. }
  assert (∀ a, headed (need_to_print_file_name p) a [e] ↔
               (need_to_print_file_name p = true → i = a)) as H2.
  { intros a. destruct He as [-> | ->]; simpl; tauto. }
  unfold pass_ok.
  destruct Hhdr as [(-> & Hl' & -> & Hno)|(name & _ & -> & Hl' & -> & -> & Hne)];
    rewrite Hlog, Hl'.
  - change ([] ++ [e]) with [e]. rewrite headed_app, last_header_app, H1, H2.
    split; [split; [done|]|done].
    intros Hneed. rewrite Hneed in Hpfn. rewrite <- Hlast.
    destruct Hno as [-> |]; [|done]. by destruct Hpfn.
  - rewrite (app_assoc _ [Header i name] [e]), !headed_app, !last_header_app, H1, H2.
    destruct (need_to_print_file_name p) eqn:Hneed; [|done].
    simpl. repeat split; try done. by right.
Qed.

Lemma check_end_marker_headed (p : mtail_params) i buf n st st' brk pfn :
  check_end_marker p i buf n st = Some (st', brk) →
  pass_ok p i pfn st → pass_ok p i pfn st'.
Proof.
  intros (c & _ & [(_ & -> & _)|(_ & _ & fd & f & m & _ & _ & _ & Hl & Hcase)])
    %check_end_marker_inv (Hh & Hlast & Hpfn); [done|].
  unfold pass_ok. rewrite Hl.
  destruct Hcase as [(_ & -> & _)|(_ & r & texts & _ & -> & _)]; [done|].
  rewrite headed_app, last_header_app. by repeat split.
Qed.

Lemma read_records_headed (p : mtail_params) (fs : filesystem) (i : Z) (fuel : nat) :
  ∀ pfn st st',
    read_records fuel p fs i pfn st = Ok st' →
    pass_ok p i pfn st → ∃ pfn', pass_ok p i pfn' st'.
Proof.
  induction fuel as [|fuel IH]; intros pfn st st' H Hok; simpl in H; [done|].
  destruct (zlookup (f_array st) i) as [fd|] eqn:Hfd; [|done]. simpl in H.
  destruct (fp fd) as [f|] eqn:Hfp; [|done]. simpl in H.
  destruct (getdelim fs (f_delim fd) f) as [[[buf n] f']|] eqn:Hget.
  - destruct (emit_record p i buf n pfn (set_file st i (set_fp fd (Some f'))))
      as [[[st1 pfn1] buf1]|] eqn:He; [|done]. simpl in H.
    destruct (check_end_marker p i buf1 n st1) as [[st2 brk]|] eqn:Hc; [|done].
    simpl in H.
    apply emit_record_headed in He; [|done].
    apply (check_end_marker_headed _ _ _ _ _ _ _ pfn1) in Hc; [|done].
    destruct brk.
    + injection H as <-. by exists pfn1.
    + by apply (IH pfn1 st2).
  - injection H as <-. by exists pfn.
Qed.

Lemma poll_files_headed (p : mtail_params) (fs : filesystem) (idx : list Z)
    (st st' : state) :
  poll_files p fs idx st = Ok st' →
  pass_ok p (-1) (need_to_print_file_name p) st →
  pass_ok p (-1) (need_to_print_file_name p) st'.
Proof.
  revert st. induction idx as [|i idx IH]; intros st H Hok; simpl in H.
  - by injection H as <-.
  - destruct (read_file p fs i st) as [st1| |] eqn:H1; try done. simpl in H.
    apply (IH st1); [done|]. unfold read_file in H1.
    destruct (zlookup (f_array st) i) as [fd|]; [|done].
    cbn [mbind result_bind defined] in H1.
    destruct (fp fd) as [f|]; [|done].
    cbn [mbind result_bind defined] in H1.
    apply read_records_headed in H1 as (pfn' & Hh & Hl & _).
    + repeat split; try done. destruct (need_to_print_file_name p); [by left|done].
    + destruct Hok as (Hh & Hl & _). repeat split; try done.
      destruct (need_to_print_file_name p); [by left|done].
Qed.

Lemma follow_headed (p : mtail_params) (rounds : list round) (st st' : state)
    (ended : bool) :
  follow p rounds st = Ok (st', ended) →
  pass_ok p (-1) (need_to_print_file_name p) st →
  pass_ok p (-1) (need_to_print_file_name p) st'.
Proof.
  revert st. induction rounds as [|r rounds IH]; intros st H Hok.
  - simpl in H. by injection H as <- <-.
  - rewrite follow_cons in H.
    destruct (open_files (disk r) (files p) (f_array st)) as [[arr opened]|]; [|done].
    cbn [mbind result_bind defined] in H. destruct opened.
    + destruct (poll_files p (disk r) (seqZ 0 (num_files p)) (set_files st arr))
        as [st1| |] eqn:Hp; try done. cbn [mbind result_bind] in H.
      apply poll_files_headed in Hp; [|done].
      destruct (stop_conditions_met r); [by injection H as <- <-|by apply (IH st1)].
    + by injection H as <- <-.
Qed.

Lemma init_state_headed (p : mtail_params) :
  pass_ok p (-1) (need_to_print_file_name p) (init_state p).
Proof.
  repeat split. destruct (need_to_print_file_name p); [by left|done].
Qed.

(** X15.  Headers are printed only when more than one file is followed and
    quiet mode is off.  Then, whenever a record is printed directly or
    enqueued, the last header printed before is that of the file of the
    record; in particular none is printed directly or enqueued before the
    first header.  This says nothing about the lines that a drain prints:
    they are printed without a header of their own, and can follow the
    header of another file. *)
Theorem own_header_when_printed_or_enqueued (p : mtail_params) (rounds : list round)
    (st : state) (ended : bool) :
  follow p rounds (init_state p) = Ok (st, ended) →
  headed (need_to_print_file_name p) (-1) (log st).
Proof.
  intros H. by destruct (follow_headed _ _ _ _ _ H (init_state_headed p)) as [Hh _].
Qed.

Lemma own_header_when_printed_or_enqueued_witness :
  headed (need_to_print_file_name params_two) (-1) (log state_after_round2).
Proof.
  apply (own_header_when_printed_or_enqueued params_two [round1; round2]
           state_after_round2 true).
  vm_compute. reflexivity.
Defined.

Lemma headed_no_header (last : Z) (l : list event) :
  headed false last l → Forall (λ e, is_header e = false) l.
Proof.
  revert last. induction l as [|e l IH]; intros last H; [constructor|].
  destruct e; simpl in H; destruct H as [? H] || idtac;
    try done; constructor; try done; by eapply IH.
Qed.

(** X16.  In quiet mode, and when a single file is followed, no header is
    ever printed. *)
Theorem no_header_when_quiet_or_single (p : mtail_params) (rounds : list round)
    (st : state) (ended : bool) :
  quiet p = true ∨ (length (files p) ≤ 1)%nat →
  follow p rounds (init_state p) = Ok (st, ended) →
  Forall (λ e, is_header e = false) (log st).
Proof.
  intros Hq H.
  destruct (follow_headed _ _ _ _ _ H (init_state_headed p)) as [Hh _].
  assert (need_to_print_file_name p = false) as Hneed.
  { unfold need_to_print_file_name, num_files.
    destruct Hq as [-> |Hlen]; [done|].
    rewrite bool_decide_eq_false_2 by lia. by destruct (quiet p). }
  rewrite Hneed in Hh. by eapply headed_no_header.
Qed.

Lemma no_header_when_quiet_or_single_witness :
  Forall (λ e, is_header e = false) (log state_ab_final).
Proof.
  apply (no_header_when_quiet_or_single params_ab [round_ab] state_ab_final true).
  - by left.
  - vm_compute. reflexivity.
Defined.

(** X17.  No header repeats the file of the header before it: between two
    headers of the same file there is a header of another file. *)
Theorem headers_never_repeat (p : mtail_params) (rounds : list round)
    (st : state) (ended : bool) :
  follow p rounds (init_state p) = Ok (st, ended) →
  headers_change (-1) (log st).
Proof. apply headers_alternate. Qed.

Lemma headers_never_repeat_witness :
  headers_change (-1) (log state_after_round2).
Proof.
  apply (headers_never_repeat params_two [round1; round2] state_after_round2 true).
  vm_compute. reflexivity.
Defined.

(** ** The delimiter *)

Lemma delimiter_ok_follow (p : mtail_params) (rounds : list round) (st st' : state)
    (ended : bool) :
  follow p rounds st = Ok (st', ended) →
  Forall (delimiter_ok p) (f_array st) → Forall (delimiter_ok p) (f_array st').
Proof.
  apply (follow_Forall p (delimiter_ok p)).
  - by intros fd f H _.
  - by intros fd r ln len ln' H _ _.
  - intros fd r texts f off [_ H0] Hend _ _. unfold delimiter_ok. simpl.
    destruct (decide (num_lines p = 0)) as [Hn|Hn].
    + rewrite (H0 Hn) in Hend. done.
    + rewrite bool_decide_eq_false_2 by done. done.
Qed.

(** X18.  Records of a file are read up to [delim] until the end of the file
    is reached for the first time, and up to the end marker afterwards.  With
    [num_lines = 0] the end counts as reached from the start and the
    delimiter is never switched: it stays [delim] for the whole run. *)
Theorem delimiter_follows_flag (p : mtail_params) (rounds : list round)
    (st : state) (ended : bool) (i : Z) (fd : file_data) :
  follow p rounds (init_state p) = Ok (st, ended) →
  zlookup (f_array st) i = Some fd →
  f_delim fd = (if end_reached fd && negb (bool_decide (num_lines p = 0))
                then end_marker p else delim p) ∧
  (num_lines p = 0 → end_reached fd = true ∧ f_delim fd = delim p).
Proof.
  intros H [_ Hfd]%zlookup_Some.
  assert (Forall (delimiter_ok p) (f_array (init_state p))) as Hinit.
  { apply Forall_replicate. split; simpl.
    - by destruct (bool_decide (num_lines p = 0)).
    - intros Hn. by apply bool_decide_eq_true. }
  pose proof (delimiter_ok_follow _ _ _ _ _ H Hinit) as Hall.
  destruct (Forall_lookup_1 _ _ _ _ Hall Hfd) as [Hd H0].
  split; [done|]. intros Hn. split; [by apply H0|].
  rewrite Hd, bool_decide_eq_true_2 by done. by rewrite andb_false_r.
Qed.

Lemma delimiter_follows_flag_witness :
  f_delim file_A_after_round1
  = (if end_reached file_A_after_round1 && negb (bool_decide (num_lines params_two = 0))
     then end_marker params_two else delim params_two) ∧
  (num_lines params_two = 0 →
   end_reached file_A_after_round1 = true ∧ f_delim file_A_after_round1 = delim params_two).
Proof.
  apply (delimiter_follows_flag params_two [round1] state_after_round1 false 0).
  - vm_compute. reflexivity.
  - vm_compute. reflexivity.
Defined.

(** ** The phases of a file *)

Lemma phases_app (i : Z) (printing : bool) (l l' : list event) :
  phases i printing (l ++ l') = (b ← phases i printing l; phases i b l').
Proof.
  revert printing. induction l as [|e l IH]; intros printing; [done|].
  destruct e; simpl; try done; destruct (decide _); try done; by destruct printing.
Qed.

Lemma phased_refl (st : state) : phased st st.
Proof.
  split; [done|]. exists []. split; [by rewrite app_nil_r|].
  intros i fd Hfd. by exists fd.
Qed.

Lemma phased_trans (st1 st2 st3 : state) :
  phased st1 st2 → phased st2 st3 → phased st1 st3.
Proof.
  intros (Hlen1 & l1 & Hl1 & H1) (Hlen2 & l2 & Hl2 & H2).
  split; [congruence|]. exists (l1 ++ l2).
  split; [by rewrite Hl2, Hl1, app_assoc|].
  intros i fd Hfd. destruct (H1 i fd Hfd) as (fd2 & Hfd2 & Hp1).
  destruct (H2 i fd2 Hfd2) as (fd3 & Hfd3 & Hp2).
  exists fd3. split; [done|]. by rewrite phases_app, Hp1.
Qed.

(** A step that changes file [n] and adds the events [l]. *)
Lemma phased_step (st st' : state) (n : nat) (fd fd' : file_data) (l : list event) :
  f_array st !! n = Some fd →
  f_array st' = <[n := fd']> (f_array st) →
  log st' = log st ++ l →
  phases (Z.of_nat n) (end_reached fd) l = Some (end_reached fd') →
  (∀ j b, j ≠ Z.of_nat n → phases j b l = Some b) →
  phased st st'.
Proof.
  intros Hfd Harr Hlog Hn Hother.
  split; [by rewrite Harr, length_insert|]. exists l. split; [done|].
  intros i fd0 Hfd0. rewrite Harr.
  destruct (zlookup_insert_cases _ n fd' _ _ Hfd0) as [[-> Hi]|[Hne Hi]].
  - exists fd'. split; [done|]. rewrite zlookup_of_nat in Hfd0. congruence.
  - exists fd0. split; [done|]. by apply Hother.
Qed.

Lemma phased_stream (st : state) (n : nat) (fd : file_data) (f : option FILE) :
  f_array st !! n = Some fd →
  stream_step (fp fd) f →
  phased st (set_files st (<[n := set_fp fd f]> (f_array st))).
Proof.
  intros Hfd _. apply (phased_step _ _ n fd (set_fp fd f) []); try done.
  simpl. by rewrite app_nil_r.
Qed.

Lemma phased_emit (p : mtail_params) i buf n pfn st st' pfn' buf' :
  emit_record p i buf n pfn st = Some (st', pfn', buf') → phased st st'.
Proof.
  intros (c & _ & [(_ & -> & _)|(_ & fd & hdr & Hfd & Hhdr & Hcase)])%emit_record_inv;
    [apply phased_refl|].
  apply zlookup_Some in Hfd as [Hi Hfd].
  assert (∀ j b e, phases j b (hdr ++ [e]) = phases j b [e]) as Hh.
  { intros j b e. by destruct Hhdr as [(-> & _)|(name & _ & -> & _)]. }
  destruct Hcase as [(Hend & Harr & Hlog & _)|(Hend & r & _ & Harr & Hlog)].
  - apply (phased_step _ _ (Z.to_nat i) fd fd (hdr ++ [Direct i buf])); try done.
    + by rewrite Harr, list_insert_id.
    + rewrite Hh, Hend. simpl. rewrite decide_True by lia. done.
    + intros j b Hj. rewrite Hh. simpl. rewrite decide_False by lia. done.
  - apply (phased_step _ _ (Z.to_nat i) fd (set_rb fd r) (hdr ++ [Enqueued i buf]));
      try done.
    + rewrite Hh. simpl. rewrite Hend, decide_True by lia. done.
    + intros j b Hj. rewrite Hh. simpl. rewrite decide_False by lia. done.
Qed.

Lemma phased_check (p : mtail_params) i buf n st st' brk :
  check_end_marker p i buf n st = Some (st', brk) → phased st st'.
Proof.
  intros (c & _ & [(_ & -> & _)|(_ & _ & fd & f & m & Hfd & _ & _ & _ & Hcase)])
    %check_end_marker_inv; [apply phased_refl|].
  apply zlookup_Some in Hfd as [Hi Hfd].
  destruct Hcase as [(Hend & Hlog & Harr)|(Hend & r & texts & _ & Hlog & Harr)].
  - eapply (phased_step _ _ (Z.to_nat i) fd _ []); try done.
    by rewrite Hlog, app_nil_r.
  - eapply (phased_step _ _ (Z.to_nat i) fd _ [Drained i texts]); try done.
    + rewrite Hend. simpl. rewrite decide_True by lia. done.
    + intros j b Hj. simpl. rewrite decide_False by lia. done.
Qed.

Lemma phased_follow (p : mtail_params) (rounds : list round) (st st' : state)
    (ended : bool) :
  follow p rounds st = Ok (st', ended) → phased st st'.
Proof.
  apply (follow_R p phased phased_refl phased_trans phased_stream
           (phased_emit p) (phased_check p)).
Qed.

(** X19.  The calls made for a file come in phases: records are enqueued,
    then the buffer is drained, once, then records are printed.  Nothing is
    printed before the drain and nothing is enqueued or drained after it;
    [end_reached] tells in which phase the file is.  With [num_lines = 0] the
    file starts in the last phase. *)
Theorem file_phases (p : mtail_params) (rounds : list round) (st : state)
    (ended : bool) (i : Z) (fd : file_data) :
  follow p rounds (init_state p) = Ok (st, ended) →
  zlookup (f_array st) i = Some fd →
  phases i (bool_decide (num_lines p = 0)) (log st) = Some (end_reached fd).
Proof.
  intros (Hlen & l & Hlog & H)%phased_follow Hfd.
  pose proof (init_state_lookup p st i fd Hlen Hfd) as Hinit.
  destruct (H i _ Hinit) as (fd' & Hfd' & Hp).
  simpl in Hlog. rewrite Hlog. simpl in Hp. congruence.
Qed.

Lemma file_phases_witness :
  phases 0 (bool_decide (num_lines params_two = 0)) (log state_after_round2)
  = Some (end_reached (default (init_file params_two) (f_array state_after_round2 !! 0%nat))).
Proof.
  apply (file_phases params_two [round1; round2] state_after_round2 true 0).
  - vm_compute. reflexivity.
  - vm_compute. reflexivity.
Defined.

(** ** Rounds without news *)


Lemma read_record_no_delim (d : char) (s : list char) :
  d ∉ s → read_record d s = s.
Proof.
  induction s as [|c s IH]; intros Hd; [done|]. simpl.
  apply not_elem_of_cons in Hd as [Hc Hs].
  rewrite decide_False by done. by rewrite IH.
Qed.










(** ** Reading a file of lines *)

























(** *** Runs over a single file *)








(** *** The last lines *)






(** *** Printing from the start *)









(** ** Data appended after the end was reached *)






(** * The transition at the boundary *)

(** ** Relations kept by the read loop

    As [Runs], for relations that the handling of a record keeps when the
    record is one that [getdelim] has returned. *)

Section Reads.
Variable p : mtail_params.
Variable R : state → state → Prop.

Hypothesis R_refl : ∀ st, R st st.
Hypothesis R_trans : ∀ st1 st2 st3, R st1 st2 → R st2 st3 → R st1 st3.
Hypothesis R_stream : ∀ st (n : nat) fd f,
  f_array st !! n = Some fd →
  stream_step (fp fd) f →
  R st (set_files st (<[n := set_fp fd f]> (f_array st))).
Hypothesis R_emit : ∀ i rec pfn st st' pfn' buf',
  rec ≠ [] →
  emit_record p i (rec ++ [NUL]) (Z.of_nat (length rec)) pfn st = Some (st', pfn', buf') →
  R st st'.
Hypothesis R_check : ∀ i buf n st st' brk,
  check_end_marker p i buf n st = Some (st', brk) → R st st'.




End Reads.

(** ** The buffer of a file before the boundary *)























(** ** C2: the transition happens once *)


